(** * Instrumentator: resource resolver and orchestrator

    A shallow embedding of [cakefuzzer/instrumentation/instrumentator.py].

    The class [Instrumentator] loads the declared instrumentations from
    the settings, discovers version-scoped patches and copies below
    [patch_dir/cakephp/<major>/] with [Path.rglob], and drives the batch
    helpers [check], [apply] and [revert] over four groups.

    Layout of this file:
    - [PyStr]     the [str] methods the module calls ([rfind], slicing,
                  [split], [int], [str]);
    - [PathLib]   [pathlib] paths as lists of segments, [fnmatch], the
                  directory tree and [rglob];
    - [Instr]     the instrumentation values, the process state, the
                  error-and-state monad and the batch helpers;
    - [Instrumentator] the methods of the class, line by line;
    - [Reading]   what the methods compute, as functions of the tree;
    - [Spec]      the statements of the documentation;
    - [Demo]      a small installation to evaluate the code on;
    - the facts about these, and the properties C1 to C10. *)

From Stdlib Require Import ZArith Ascii.
From stdpp Require Import base option list strings gmap pretty.

Set Warnings "-register-all".


(* ===================================================================== *)
(** ** Python strings *)
(* ===================================================================== *)

Module PyStr.

(** [len(s)] as a Python integer. *)
Definition len (s : string) : Z := Z.of_nat (String.length s).

(** [s.rfind(c)] for a one-character needle: the highest index at
    which [c] occurs, [-1] when it does not occur.  [i] is the index
    of the first character of [s] in the whole string. *)
Fixpoint rfind_from (c : ascii) (s : string) (i : Z) : Z :=
  match s with
  | EmptyString => (-1)%Z
  | String a r =>
      let j := rfind_from c r (i + 1)%Z in
      if (0 <=? j)%Z then j
      else if Ascii.eqb a c then i else (-1)%Z
  end.

Definition rfind (c : ascii) (s : string) : Z := rfind_from c s 0%Z.

(** [s[:i]] for [0 <= i]. *)
Definition slice_to (i : Z) (s : string) : string :=
  String.substring 0 (Z.to_nat i) s.

(** [s.split(sep)] for a one-character separator: never empty. *)
Fixpoint split (sep : ascii) (s : string) : list string :=
  match s with
  | EmptyString => [EmptyString]
  | String a r =>
      if Ascii.eqb a sep then EmptyString :: split sep r
      else match split sep r with
           | h :: t => String a h :: t
           | [] => [String a EmptyString]
           end
  end.

(** *** [int]

    A Python string is a sequence of code points; a string of this
    file holds its UTF-8 bytes.  [int(s)] in base ten is modelled as
    CPython 3.11 computes it (Unicode 14, the default limit of 4300
    digits): code points of the category Nd stand for their decimal
    value, white space is skipped at both ends, one sign may lead,
    single underscores may separate digits (PEP 515), and a literal
    of more than [max_str_digits] digits is refused.  Other releases
    differ in the tables only (a later Unicode version adds scripts)
    and, before the limit was introduced, in having no limit. *)

(** The code points of a list of UTF-8 bytes; [None] when the bytes
    are no UTF-8 (shortest form, at most U+10FFFF), in which case
    they stand for no Python string. *)
Definition continuation (a : ascii) : option N :=
  let b := N_of_ascii a in
  if (128 <=? b)%N && (b <? 192)%N then Some (b - 128)%N else None.

Fixpoint code_points (l : list ascii) : option (list N) :=
  match l with
  | [] => Some []
  | a :: r =>
      let b := N_of_ascii a in
      if (b <? 128)%N then cons b <$> code_points r
      else if (b <? 192)%N then None
      else if (b <? 224)%N then
        match r with
        | a1 :: r1 =>
            match continuation a1 with
            | Some c1 =>
                let c := ((b - 192) * 64 + c1)%N in
                if (128 <=? c)%N then cons c <$> code_points r1 else None
            | None => None
            end
        | _ => None
        end
      else if (b <? 240)%N then
        match r with
        | a1 :: a2 :: r2 =>
            match continuation a1, continuation a2 with
            | Some c1, Some c2 =>
                let c := (((b - 224) * 64 + c1) * 64 + c2)%N in
                if (2048 <=? c)%N then cons c <$> code_points r2 else None
            | _, _ => None
            end
        | _ => None
        end
      else if (b <? 248)%N then
        match r with
        | a1 :: a2 :: a3 :: r3 =>
            match continuation a1, continuation a2, continuation a3 with
            | Some c1, Some c2, Some c3 =>
                let c := ((((b - 240) * 64 + c1) * 64 + c2) * 64 + c3)%N in
                if (65536 <=? c)%N && (c <=? 1114111)%N
                then cons c <$> code_points r3 else None
            | _, _, _ => None
            end
        | _ => None
        end
      else None
  end.

(** The code points from 127 on for which [str.isspace] holds. *)
Definition unicode_spaces : list N :=
  [133; 160; 5760; 8192; 8193; 8194; 8195; 8196; 8197; 8198; 8199;
   8200; 8201; 8202; 8232; 8233; 8239; 8287; 12288]%N.

(** The code points [int] skips at both ends.  Below 127 the
    characters are left to the C parser, whose white space is tab to
    carriage return and the space (not the separators 28 to 31, which
    [str.isspace] accepts); from 127 on, the ones of [str.isspace]. *)
Definition isspace (c : N) : bool :=
  if (c <? 127)%N then ((9 <=? c)%N && (c <=? 13)%N) || (c =? 32)%N
  else existsb (N.eqb c) unicode_spaces.

(** The code point of the digit zero of every run of ten decimal
    digits (category Nd): ASCII, Arabic-Indic, ..., the mathematical
    digits, ..., segmented digits. *)
Definition decimal_zeros : list N :=
  [48; 1632; 1776; 1984; 2406; 2534; 2662; 2790; 2918; 3046; 3174;
   3302; 3430; 3558; 3664; 3792; 3872; 4160; 4240; 6112; 6160; 6470;
   6608; 6784; 6800; 6992; 7088; 7232; 7248; 42528; 43216; 43264;
   43472; 43504; 43600; 44016; 65296; 66720; 68912; 69734; 69872;
   69942; 70096; 70384; 70736; 70864; 71248; 71360; 71472; 71904;
   72016; 72784; 73040; 73120; 92768; 92864; 93008; 120782; 120792;
   120802; 120812; 120822; 123200; 123632; 125264; 130032]%N.

Definition digit_val (c : N) : option Z :=
  (λ z, Z.of_N (c - z))
    <$> List.find (λ z, (z <=? c)%N && (c <? z + 10)%N) decimal_zeros.

(** Decimal digits with single underscores between digits (PEP 515).
    [prev] tells whether the previous character was a digit. *)
Fixpoint digits (acc : Z) (prev : bool) (l : list N) : option Z :=
  match l with
  | [] => if prev then Some acc else None
  | c :: r =>
      match digit_val c with
      | Some d => digits (10 * acc + d)%Z true r
      | None =>
          if (c =? 95)%N && prev then digits acc false r
          else None
      end
  end.

Definition strip (l : list N) : list N :=
  let drop := fix drop (l : list N) : list N :=
    match l with
    | c :: r => if isspace c then drop r else l
    | [] => []
    end in
  rev (drop (rev (drop l))).

(** [sys.get_int_max_str_digits()], by default. *)
Definition max_str_digits : N := 4300.

Definition count_digits (l : list N) : N :=
  N.of_nat (length (filter (λ c, is_Some (digit_val c)) l)).

(** [int(s)]; [None] stands for the [ValueError] Python raises. *)
Definition int (s : string) : option Z :=
  match strip <$> code_points (String.list_ascii_of_string s) with
  | Some body =>
      if (max_str_digits <? count_digits body)%N then None
      else
        match body with
        | c :: r =>
            if (c =? 45)%N then Z.opp <$> digits 0%Z false r
            else if (c =? 43)%N then digits 0%Z false r
            else digits 0%Z false body
        | [] => None
        end
  | None => None
  end.

(** The UTF-8 bytes of a list of code points: the string of this
    file that stands for the Python string with these characters. *)
Definition utf8_char (c : N) : list N :=
  if (c <? 128)%N then [c]
  else if (c <? 2048)%N then [192 + c / 64; 128 + c mod 64]%N
  else if (c <? 65536)%N
  then [224 + c / 4096; 128 + (c / 64) mod 64; 128 + c mod 64]%N
  else [240 + c / 262144; 128 + (c / 4096) mod 64;
        128 + (c / 64) mod 64; 128 + c mod 64]%N.

Definition utf8 (l : list N) : string :=
  String.string_of_list_ascii (ascii_of_N <$> (l ≫= utf8_char)).

(** [c in s] for a one-character [c]. *)
Fixpoint occurs (c : ascii) (s : string) : bool :=
  match s with
  | EmptyString => false
  | String a r => Ascii.eqb a c || occurs c r
  end.

(** [str(n)] for an integer. *)
Definition str (n : Z) : string := pretty n.

(** The text before the first occurrence of [c] (all of [s] when [c]
    does not occur): what the documentation calls the major part of a
    dotted version. *)
Fixpoint before_first (c : ascii) (s : string) : string :=
  match s with
  | EmptyString => EmptyString
  | String a r => if Ascii.eqb a c then EmptyString
                  else String a (before_first c r)
  end.

End PyStr.

(* ===================================================================== *)
(** ** pathlib, fnmatch and the directory tree *)
(* ===================================================================== *)

Module PathLib.

(** A path is the list of its segments.  Absolute paths hold the
    segments below [/]; the relative paths [relative_to] returns hold
    the segments below the base. *)
Definition Path := list string.

(** [str(p)] of an absolute path. *)
Definition str (p : Path) : string :=
  match p with
  | [] => "/"
  | _ => foldr (fun seg acc => "/" +:+ seg +:+ acc) "" p
  end.

(** [p / q] with a relative right operand. *)
Definition joinpath (p q : Path) : Path := p ++ q.

(** [p / s] where [s] is a string holding one segment.  Parsing the
    string drops an empty or [.] segment and keeps [..]. *)
Definition joinpath_str (p : Path) (s : string) : Path :=
  if decide (s = "" ∨ s = ".") then p else p ++ [s].

(** [file.relative_to(base)]; [None] is the [ValueError]. *)
Fixpoint relative_to (file base : Path) {struct base} : option Path :=
  match base with
  | [] => Some file
  | b :: base' =>
      match file with
      | f :: file' => if decide (f = b) then relative_to file' base' else None
      | [] => None
      end
  end.

(** [p.parent] of a relative path: the parent of a single segment,
    and of the empty path, is the empty path ([.]). *)
Definition parent (p : Path) : Path := removelast p.

(** [p.name]: the last segment, empty for the empty path. *)
Definition name (p : Path) : string := List.last p "".

(** [p.stem]: the name minus its last suffix, as CPython 3.4 to 3.13
    compute it:
    [i = name.rfind('.'); name[:i] if 0 < i < len(name) - 1 else name]. *)
Definition stem (p : Path) : string :=
  let name := name p in
  let i := PyStr.rfind "."%char name in
  if ((0 <? i)%Z && (i <? PyStr.len name - 1)%Z) then PyStr.slice_to i name
  else name.

(** [fnmatch] restricted to literal characters, [*] and [?]; the
    patterns in use are [*.patch] and [*.php]. *)
Fixpoint fnmatch (pat : string) (s : string) {struct pat} : bool :=
  match pat with
  | EmptyString => match s with EmptyString => true | _ => false end
  | String c pat' =>
      if Ascii.eqb c "*"%char then
        (fix star (s : string) : bool :=
           fnmatch pat' s ||
           match s with
           | EmptyString => false
           | String _ s' => star s'
           end) s
      else
        match s with
        | EmptyString => false
        | String d s' =>
            (Ascii.eqb c "?"%char || Ascii.eqb c d) && fnmatch pat' s'
        end
  end.

(** A pattern without wildcards. *)
Fixpoint literal (pat : string) : bool :=
  match pat with
  | EmptyString => true
  | String c r =>
      negb (Ascii.eqb c "*"%char) && negb (Ascii.eqb c "?"%char) && literal r
  end.

(** The directory tree.  A directory lists its entries in the order
    [os.scandir] returns them; the names of one listing are distinct,
    so the [yielded] set of pathlib's recursive selector never drops
    anything and is left out below.  There are no symbolic links. *)
Inductive node :=
| File (content : string)
| Dir (entries : list (string * node)).

Fixpoint child (nm : string) (entries : list (string * node)) : option node :=
  match entries with
  | [] => None
  | (k, n) :: rest => if decide (k = nm) then Some n else child nm rest
  end.

(** The entry [nm] of a directory node. *)
Definition entry (nm : string) (n : node) : option node :=
  match n with
  | Dir entries => child nm entries
  | File _ => None
  end.

(** A segment that names an entry: not empty, not [.], not [..]. *)
Definition plain (nm : string) : Prop := nm ≠ "" ∧ nm ≠ "." ∧ nm ≠ "..".

(** Resolution of a path from a directory, as the kernel does it in a
    tree without links: [.] stays, [..] goes up (and stays at the
    root), a name enters the entry of that name.  [up] is the chain of
    directories above [cur], nearest first. *)
Fixpoint walk (up : list node) (cur : node) (p : Path) : option (list node * node) :=
  match p with
  | [] => Some (up, cur)
  | seg :: rest =>
      match cur with
      | File _ => None
      | Dir entries =>
          if decide (seg = "" ∨ seg = ".") then walk up cur rest
          else if decide (seg = "..") then
            match up with
            | [] => walk [] cur rest
            | d :: up' => walk up' d rest
            end
          else
            match child seg entries with
            | Some n => walk (cur :: up) n rest
            | None => None
            end
      end
  end.

Definition lookup (root : node) (p : Path) : option node :=
  snd <$> walk [] root p.

Definition is_dir (root : node) (p : Path) : bool :=
  match lookup root p with
  | Some (Dir _) => true
  | _ => false
  end.

(** [_RecursiveWildcardSelector._iterate_directories]: the directory
    itself, then every directory below it, depth first, each with its
    listing. *)
Fixpoint iterate_directories (parent_path : Path) (n : node)
  : list (Path * list (string * node)) :=
  match n with
  | File _ => []
  | Dir entries =>
      (parent_path, entries) ::
      (fix over (es : list (string * node)) :=
         match es with
         | [] => []
         | (nm, sub) :: rest =>
             iterate_directories (parent_path ++ [nm]) sub ++ over rest
         end) entries
  end.

(** [_WildcardSelector._select_from]: the entries of one directory
    whose name matches, files and directories alike. *)
Definition select_from (pat : string) (d : Path * list (string * node))
  : list Path :=
  (fun e : string * node => d.1 ++ [e.1])
    <$> filter (fun e : string * node => fnmatch pat e.1 = true) d.2.

(** [dir.rglob(pat)]: nothing when [dir] is not a directory. *)
Definition rglob (root : node) (dir : Path) (pat : string) : list Path :=
  match lookup root dir with
  | Some (Dir entries) =>
      iterate_directories dir (Dir entries) ≫= select_from pat
  | _ => []
  end.

End PathLib.

(* ===================================================================== *)
(** ** Instrumentations, process state and the batch helpers *)
(* ===================================================================== *)

Module Instr.
Import PathLib.

(** Modelled from the spec: the instrumentation classes, which are
    declared outside the sources at hand.  [PatchInstrumentation] and
    [CopyInstrumentation] are built by the resolver with the keyword
    arguments shown; the two other kinds only arrive through the
    settings and carry the attributes of the documented data model. *)
Inductive Instrumentation :=
| PatchInstrumentation (patch original : Path)
| CopyInstrumentation (src dst : Path)
| OverrideInstrumentation (target : Path) (content : string)
| AnnotationRemoval (target : Path) (pattern : string).

Global Instance Instrumentation_eq_dec : EqDecision Instrumentation.
Proof. solve_decision. Defined.

(** What one run leaves behind, in order: writes to [os.environ],
    directory scans, calls of the batch helpers with their operands,
    the single operations the helpers run, and the printed lines. *)
Inductive event :=
| EnvSet (key value : string)
| Glob (dir : Path) (pat : string)
| CallCheck (ops : list Instrumentation)
| CallApply (ops : list Instrumentation)
| CallRevert (ops : list Instrumentation)
| OpCheck (i : Instrumentation) (applied : bool)
| OpApply (i : Instrumentation) (ok : bool)
| OpRevert (i : Instrumentation) (ok : bool)
| Printed (line : string).

Inductive exn :=
| ValueError (msg : string)
| IndexError
| KeyError (key : string)
| AttributeError (attr : string).

Record InstrumentationSettings := {
  patches : list Instrumentation;
  file_overrides : list Instrumentation;
  remove_annotations : list Instrumentation;
  copies : list Instrumentation;
  patch_dir : Path;
}.

(** The process: its environment, the file tree, the [settings]
    attribute of the [Instrumentator] object ([None] until
    [_load_settings] ran) and the events so far, oldest first. *)
Record State := {
  environ : gmap string string;
  tree : node;
  settings : option InstrumentationSettings;
  log : list event;
}.

(** Computations that read and write the process state and may raise;
    the state survives an exception. *)
Definition M (A : Type) : Type := State → (exn + A) * State.

Definition ret {A} (a : A) : M A := λ st, (inr a, st).
Definition raise {A} (e : exn) : M A := λ st, (inl e, st).
Definition bind {A B} (m : M A) (k : A → M B) : M B :=
  λ st, match m st with
        | (inr a, st') => k a st'
        | (inl e, st') => (inl e, st')
        end.

Global Instance M_ret : MRet M := @ret.
Global Instance M_bind : MBind M := λ A B k m, bind m k.

(** State updates. *)
Definition add_log (st : State) (evs : list event) : State :=
  {| environ := environ st; tree := tree st;
     settings := settings st; log := log st ++ evs |}.
Definition with_environ (st : State) (env : gmap string string) : State :=
  {| environ := env; tree := tree st;
     settings := settings st; log := log st |}.
Definition with_tree (st : State) (t : node) : State :=
  {| environ := environ st; tree := t;
     settings := settings st; log := log st |}.
Definition with_settings (st : State) (s : InstrumentationSettings) : State :=
  {| environ := environ st; tree := tree st;
     settings := Some s; log := log st |}.

Definition emit (e : event) : M unit := λ st, (inr (), add_log st [e]).

Definition get_tree : M node := λ st, (inr (tree st), st).
Definition get_environ : M (gmap string string) := λ st, (inr (environ st), st).

(** [os.environ[key] = value] *)
Definition setenv (key value : string) : M unit :=
  λ st, (inr (), add_log (with_environ st (<[key := value]> (environ st)))
                         [EnvSet key value]).

(** [os.environ[key]] *)
Definition getenv (key : string) : M string :=
  λ st, match environ st !! key with
        | Some v => (inr v, st)
        | None => (inl (KeyError key), st)
        end.

(** [self.settings = s] and [self.settings.<field>] *)
Definition set_settings (s : InstrumentationSettings) : M unit :=
  λ st, (inr (), with_settings st s).

Definition self_settings (attr : string) : M InstrumentationSettings :=
  λ st, match settings st with
        | Some s => (inr s, st)
        | None => (inl (AttributeError attr), st)
        end.

(** [print(label, n)] and [print(line)] *)
Definition print (line : string) : M unit := emit (Printed line).
Definition print2 (label : string) (n : nat) : M unit :=
  print (label +:+ " " +:+ PyStr.str (Z.of_nat n)).

(** [dir.rglob(pat)], read off the current tree. *)
Definition rglob (dir : Path) (pat : string) : M (list Path) :=
  λ st, (inr (PathLib.rglob (tree st) dir pat), add_log st [Glob dir pat]).

(** [for x in xs: acc = body(acc, x)] *)
Fixpoint for_each {A B} (xs : list A) (acc : B) (body : B → A → M B) : M B :=
  match xs with
  | [] => mret acc
  | x :: xs' => acc' ← body acc x; for_each xs' acc' body
  end.

(** The events a computation adds when run from [st]. *)
Definition events_of {A} (m : M A) (st : State) : list event :=
  drop (length (log st)) (log (m st).2).

(** The event parts of a log. *)
Definition printed (l : list event) : list string :=
  omap (λ e, match e with Printed s => Some s | _ => None end) l.

Definition check_calls (l : list event) : list (list Instrumentation) :=
  omap (λ e, match e with CallCheck ops => Some ops | _ => None end) l.

Section Batch.
(** The capability of one operation on the tree: [check] answers
    applied or not, [apply] and [revert] answer whether they
    succeeded; each returns the tree it leaves. *)
Variable op_check : Instrumentation → node → node * bool.
Variable op_apply : Instrumentation → node → node * bool.
Variable op_revert : Instrumentation → node → node * bool.

Definition run_op (f : Instrumentation → node → node * bool)
    (ev : Instrumentation → bool → event) (i : Instrumentation) : M bool :=
  λ st, let '(t, b) := f i (tree st) in
        (inr b, add_log (with_tree st t) [ev i b]).

(** Modelled from the spec: the batch helper [check] of
    [cakefuzzer.instrumentation], which takes the operations as
    its positional arguments and is not part of the sources at
    hand.  It returns the partition (applied, not applied) of its
    operands, each in operand order. *)
Fixpoint check_each (ops : list Instrumentation)
  : M (list Instrumentation * list Instrumentation) :=
  match ops with
  | [] => mret ([], [])
  | i :: ops' =>
      b ← run_op op_check OpCheck i;
      '(applied, unapplied) ← check_each ops';
      mret (if b : bool then (i :: applied, unapplied)
            else (applied, i :: unapplied))
  end.

Definition check (ops : list Instrumentation)
  : M (list Instrumentation * list Instrumentation) :=
  emit (CallCheck ops);; check_each ops.

(** Modelled from the spec: the batch helpers [apply] and
    [revert] of [cakefuzzer.instrumentation], not part of the
    sources at hand.  Each runs every operand, skips the ones that
    fail and returns the subset that succeeded. *)
Fixpoint mutate_each (f : Instrumentation → node → node * bool)
    (ev : Instrumentation → bool → event) (ops : list Instrumentation)
  : M (list Instrumentation) :=
  match ops with
  | [] => mret []
  | i :: ops' =>
      ok ← run_op f ev i;
      done ← mutate_each f ev ops';
      mret (if ok : bool then i :: done else done)
  end.

Definition apply (ops : list Instrumentation) : M (list Instrumentation) :=
  emit (CallApply ops);; mutate_each op_apply OpApply ops.

Definition revert (ops : list Instrumentation) : M (list Instrumentation) :=
  emit (CallRevert ops);; mutate_each op_revert OpRevert ops.
End Batch.

End Instr.

(* ===================================================================== *)
(** ** The collaborators and the class [Instrumentator] *)
(* ===================================================================== *)

(** [AppInfo(webroot_dir)]: the three awaited properties the module
    reads. *)
Module AppInfo.
Record t := {
  cakephp_path : PathLib.Path;
  app_dir : PathLib.Path;
  cakephp_version : string;
}.
End AppInfo.

(** The result of [load_webroot_settings()]. *)
Module WebrootSettings.
Record t := { instrumentation_ini : PathLib.Path }.
End WebrootSettings.

Module Instrumentator.
Import PathLib Instr.

Section Instrumentator.
(** The capability of the operations. *)
Variable op_check : Instrumentation → node → node * bool.
Variable op_apply : Instrumentation → node → node * bool.
Variable op_revert : Instrumentation → node → node * bool.

(** Detection and settings loading, outside this module: what
    [AppInfo(webroot_dir)] detects on a tree, what
    [load_webroot_settings()] returns, and what
    [InstrumentationSettings(_env_file=...)] reads from the
    environment. *)
Variable detect : Path → node → AppInfo.t.
Variable load_webroot_settings : gmap string string → node → WebrootSettings.t.
Variable InstrumentationSettings_init :
  string → gmap string string → node → InstrumentationSettings.

(** [self.webroot_dir] *)
Variable webroot_dir : Path.

Definition new_AppInfo (dir : Path) : M AppInfo.t :=
  t ← get_tree; mret (detect dir t).

Definition _load_settings : M unit :=
  app_info ← new_AppInfo webroot_dir;
  webroot_settings ← (env ← get_environ; t ← get_tree;
                      mret (load_webroot_settings env t));
  setenv "CAKEPHP_PATH" (str (AppInfo.cakephp_path app_info));;
  setenv "APP_DIR" (str (AppInfo.app_dir app_info));;
  setenv "WEBROOT_DIR" (str webroot_dir);;
  setenv "INSTRUMENTATION_INI"
         (str (WebrootSettings.instrumentation_ini webroot_settings));;
  _env_file ← getenv "INSTRUMENTATION_INI";
  env ← get_environ;
  t ← get_tree;
  set_settings (InstrumentationSettings_init _env_file env t).

Definition _load_settings_patches : M (list Instrumentation) :=
  s ← self_settings "patches"; mret (patches s).

Definition _load_settings_overrides : M (list Instrumentation) :=
  s ← self_settings "file_overrides"; mret (file_overrides s).

Definition _load_annotations_removal : M (list Instrumentation) :=
  s ← self_settings "remove_annotations"; mret (remove_annotations s).

(** [file.relative_to(base)] with its [ValueError]. *)
Definition relative_to_or_raise (file base : Path) : M Path :=
  match relative_to file base with
  | Some p => mret p
  | None => raise (ValueError "is not in the subpath")
  end.

Definition _load_cake_version_patches (major_version : Z)
  : M (list Instrumentation) :=
  s ← self_settings "patch_dir";
  let version_dir :=
    joinpath_str (joinpath_str (patch_dir s) "cakephp")
                 (PyStr.str major_version) in
  let app_dir := joinpath_str version_dir "APP_DIR" in
  let cakephp_path := joinpath_str version_dir "CAKEPHP_PATH" in
  let webroot_dir' := joinpath_str version_dir "WEBROOT" in
  let patches := [] in
  app_info ← new_AppInfo webroot_dir;
  let cake_app_dir := AppInfo.app_dir app_info in
  let cake_cakephp_path := AppInfo.cakephp_path app_info in
  files ← rglob app_dir "*.patch";
  patches ← for_each files patches (λ patches file,
    original ← relative_to_or_raise file app_dir;
    let original := joinpath_str (parent original) (stem original) in
    let patch := PatchInstrumentation file (joinpath cake_app_dir original) in
    mret (patches ++ [patch]));
  files ← rglob cakephp_path "*.patch";
  patches ← for_each files patches (λ patches file,
    original ← relative_to_or_raise file cakephp_path;
    let original := joinpath_str (parent original) (stem original) in
    let patch :=
      PatchInstrumentation file (joinpath cake_cakephp_path original) in
    mret (patches ++ [patch]));
  files ← rglob webroot_dir' "*.patch";
  patches ← for_each files patches (λ patches file,
    original ← relative_to_or_raise file webroot_dir';
    let original := joinpath_str (parent original) (stem original) in
    let patch :=
      PatchInstrumentation file (joinpath webroot_dir original) in
    mret (patches ++ [patch]));
  mret patches.

Definition _load_cake_version_copies (major_version : Z)
  : M (list Instrumentation) :=
  s ← self_settings "patch_dir";
  let version_dir :=
    joinpath_str (joinpath_str (patch_dir s) "cakephp")
                 (PyStr.str major_version) in
  let app_dir := joinpath_str version_dir "APP_DIR" in
  let cakephp_path := joinpath_str version_dir "CAKEPHP_PATH" in
  let webroot_dir' := joinpath_str version_dir "WEBROOT" in
  let copies := [] in
  app_info ← new_AppInfo webroot_dir;
  let cake_app_dir := AppInfo.app_dir app_info in
  let cake_cakephp_path := AppInfo.cakephp_path app_info in
  files ← rglob app_dir "*.php";
  copies ← for_each files copies (λ copies file,
    original ← relative_to_or_raise file app_dir;
    let copy := CopyInstrumentation file (joinpath cake_app_dir original) in
    mret (copies ++ [copy]));
  files ← rglob cakephp_path "*.php";
  copies ← for_each files copies (λ copies file,
    original ← relative_to_or_raise file cakephp_path;
    let copy :=
      CopyInstrumentation file (joinpath cake_cakephp_path original) in
    mret (copies ++ [copy]));
  files ← rglob webroot_dir' "*.php";
  copies ← for_each files copies (λ copies file,
    original ← relative_to_or_raise file webroot_dir';
    let copy := CopyInstrumentation file (joinpath webroot_dir original) in
    mret (copies ++ [copy]));
  mret copies.

(** [int(version.split(".")[0])] *)
Definition major_of (version : string) : M Z :=
  match PyStr.split "." version with
  | first :: _ =>
      match PyStr.int first with
      | Some n => mret n
      | None => raise (ValueError "invalid literal for int() with base 10")
      end
  | [] => raise IndexError
  end.

(** The four groups, in the order of the returned tuple. *)
Definition Groups : Type :=
  list Instrumentation * list Instrumentation
  * list Instrumentation * list Instrumentation.

Definition _load_instrumentations : M Groups :=
  _load_settings;;
  settings_patches ← _load_settings_patches;
  settings_overrides ← _load_settings_overrides;
  annotations_removal ← _load_annotations_removal;
  settings_copies ← (s ← self_settings "copies"; mret (copies s));
  app_info ← new_AppInfo webroot_dir;
  let version := AppInfo.cakephp_version app_info in
  major_version ← major_of version;
  cake_patches ← _load_cake_version_patches major_version;
  cake_copies ← _load_cake_version_copies major_version;
  mret (settings_overrides,
        settings_patches ++ cake_patches,
        settings_copies ++ cake_copies,
        annotations_removal).

Definition apply : M unit :=
  '(overrides, patches, copies, annotation_removal) ← _load_instrumentations;
  '(_, unapplied) ← Instr.check op_check overrides;
  unapplied ← Instr.apply op_apply unapplied;
  print2 "Overrides Applied" (length unapplied);;
  '(_, unapplied) ← Instr.check op_check patches;
  unapplied ← Instr.apply op_apply unapplied;
  print2 "Patches Applied" (length unapplied);;
  '(_, unapplied) ← Instr.check op_check copies;
  unapplied ← Instr.apply op_apply unapplied;
  print2 "Copies Applied" (length unapplied);;
  '(_, unapplied) ← Instr.check op_check annotation_removal;
  unapplied ← Instr.apply op_apply unapplied;
  print2 "Annotations Removed" (length unapplied).

Definition revert : M unit :=
  '(overrides, patches, copies, annotation_removal) ← _load_instrumentations;
  '(applied, _) ← Instr.check op_check annotation_removal;
  Instr.revert op_revert applied;;
  print2 "Annotations Reverted" (length applied);;
  '(applied, _) ← Instr.check op_check overrides;
  Instr.revert op_revert applied;;
  print2 "Overrides Reverted" (length applied);;
  '(applied, _) ← Instr.check op_check patches;
  Instr.revert op_revert applied;;
  print2 "Patches Reverted" (length applied);;
  '(applied, _) ← Instr.check op_check copies;
  Instr.revert op_revert applied;;
  print2 "Copies Reverted" (length applied).

Definition ratio (label : string) (applied unapplied : nat) : string :=
  label +:+ ": " +:+ PyStr.str (Z.of_nat applied) +:+ "/"
        +:+ PyStr.str (Z.of_nat unapplied).

Definition is_applied : M unit :=
  '(overrides, patches, copies, annotation_removal) ← _load_instrumentations;
  '(applied, unapplied) ← Instr.check op_check overrides;
  print "Applied / Unapplied";;
  print (ratio "Overrides" (length applied) (length unapplied));;
  '(applied, unapplied) ← Instr.check op_check patches;
  print (ratio "Patches" (length applied) (length unapplied));;
  '(applied, unapplied) ← Instr.check op_check copies;
  print (ratio "Copies" (length applied) (length unapplied));;
  '(applied, unapplied) ← Instr.check op_check annotation_removal;
  print (ratio "Annotations" (length applied) (length unapplied)).

End Instrumentator.
End Instrumentator.

(* ===================================================================== *)
(** ** What the resolver computes, read as functions of the tree *)
(* ===================================================================== *)

Module Reading.
Import PathLib Instr.

Section Reading.
Variable detect : Path → node → AppInfo.t.
Variable webroot_dir : Path.

(** [settings.patch_dir / "cakephp" / str(major_version)] *)
Definition version_dir (s : InstrumentationSettings) (major : Z) : Path :=
  joinpath_str (joinpath_str (patch_dir s) "cakephp") (PyStr.str major).

(** The operation one loop iteration appends for [file], found
    below [base] and bound to the live root [live]. *)
Definition patch_for (base live file : Path) : Instrumentation :=
  let original := drop (length base) file in
  PatchInstrumentation file
    (joinpath live (joinpath_str (parent original) (stem original))).

Definition copy_for (base live file : Path) : Instrumentation :=
  CopyInstrumentation file (joinpath live (drop (length base) file)).

(** The three root subtrees with their live roots, in loop order. *)
Definition roots (t : node) : list (string * Path) :=
  let info := detect webroot_dir t in
  [("APP_DIR", AppInfo.app_dir info);
   ("CAKEPHP_PATH", AppInfo.cakephp_path info);
   ("WEBROOT", webroot_dir)].

Definition discovered (mk : Path → Path → Path → Instrumentation)
    (pat : string) (s : InstrumentationSettings) (t : node) (major : Z)
  : list Instrumentation :=
  roots t ≫= λ r,
    let base := joinpath_str (version_dir s major) r.1 in
    mk base r.2 <$> PathLib.rglob t base pat.

Definition globs (pat : string) (s : InstrumentationSettings) (major : Z)
  : list event :=
  (λ sub, Glob (joinpath_str (version_dir s major) sub) pat)
    <$> ["APP_DIR"; "CAKEPHP_PATH"; "WEBROOT"].

Variable load_webroot_settings : gmap string string → node → WebrootSettings.t.
Variable InstrumentationSettings_init :
  string → gmap string string → node → InstrumentationSettings.

(** The four assignments to [os.environ] in [_load_settings]. *)
Definition env_writes (st : State) : list (string * string) :=
  let info := detect webroot_dir (tree st) in
  let ws := load_webroot_settings (environ st) (tree st) in
  [("CAKEPHP_PATH", str (AppInfo.cakephp_path info));
   ("APP_DIR", str (AppInfo.app_dir info));
   ("WEBROOT_DIR", str webroot_dir);
   ("INSTRUMENTATION_INI", str (WebrootSettings.instrumentation_ini ws))].

Definition loaded_environ (st : State) : gmap string string :=
  foldl (λ env kv, <[kv.1 := kv.2]> env) (environ st) (env_writes st).

Definition loaded_settings (st : State) : InstrumentationSettings :=
  InstrumentationSettings_init
    (str (WebrootSettings.instrumentation_ini
            (load_webroot_settings (environ st) (tree st))))
    (loaded_environ st) (tree st).

(** The state [_load_settings] leaves. *)
Definition after_load_settings (st : State) : State :=
  add_log (with_settings (with_environ st (loaded_environ st))
                         (loaded_settings st))
          ((λ kv, EnvSet kv.1 kv.2) <$> env_writes st).

(** [int(version.split(".")[0])] as a value. *)
Definition parse_major (version : string) : exn + Z :=
  match PyStr.split "." version with
  | first :: _ =>
      match PyStr.int first with
      | Some n => inr n
      | None => inl (ValueError "invalid literal for int() with base 10")
      end
  | [] => inl IndexError
  end.

(** The groups [_load_instrumentations] returns from [st] when the
    major version is [major]. *)
Definition loaded_groups (st : State) (major : Z) : Instrumentator.Groups :=
  let s := loaded_settings st in
  (file_overrides s,
   patches s ++ discovered patch_for "*.patch" s (tree st) major,
   copies s ++ discovered copy_for "*.php" s (tree st) major,
   remove_annotations s).

Definition after_load (st : State) (major : Z) : State :=
  add_log (after_load_settings st)
          (globs "*.patch" (loaded_settings st) major
           ++ globs "*.php" (loaded_settings st) major).

(** The events of [_load_settings] and of a whole
    [_load_instrumentations]. *)
Definition env_events (st : State) : list event :=
  (λ kv, EnvSet kv.1 kv.2) <$> env_writes st.

Definition load_events (st : State) (major : Z) : list event :=
  env_events st
  ++ globs "*.patch" (loaded_settings st) major
  ++ globs "*.php" (loaded_settings st) major.
End Reading.

(** *** The batch helpers and the group steps as functions *)

(** Running the capability [f] over [ops] from the tree [t], left to
    right: the answers, and the tree that is left. *)
Fixpoint run_ops (f : Instrumentation → node → node * bool)
    (ops : list Instrumentation) (t : node) : node * list bool :=
  match ops with
  | [] => (t, [])
  | i :: ops' =>
      let r := f i t in
      let r' := run_ops f ops' r.1 in
      (r'.1, r.2 :: r'.2)
  end.

Definition answers f ops t : list bool := (run_ops f ops t).2.
Definition tree_after f ops t : node := (run_ops f ops t).1.

(** The operations whose answer was [want], in order. *)
Fixpoint select (want : bool) (ops : list Instrumentation) (bs : list bool)
  : list Instrumentation :=
  match ops, bs with
  | i :: ops', b :: bs' =>
      if Bool.eqb b want then i :: select want ops' bs'
      else select want ops' bs'
  | _, _ => []
  end.

Section Groups.
Variable op_check : Instrumentation → node → node * bool.
Variable op_mutate : Instrumentation → node → node * bool.

(** One group of [Instrumentator.apply] or [Instrumentator.revert],
    started on the tree [t]: [want] is the side of the partition
    that is mutated ([false], the not-applied side, for apply, and
    [true], the applied side, for revert). *)
Definition partition_of (ops : list Instrumentation) (t : node)
  : list Instrumentation * list Instrumentation :=
  let bs := answers op_check ops t in
  (select true ops bs, select false ops bs).

Definition operands (want : bool) (ops : list Instrumentation) (t : node)
  : list Instrumentation :=
  select want ops (answers op_check ops t).

Definition outcomes (want : bool) (ops : list Instrumentation) (t : node)
  : list bool :=
  answers op_mutate (operands want ops t) (tree_after op_check ops t).

Definition succeeded (want : bool) (ops : list Instrumentation) (t : node)
  : list Instrumentation :=
  select true (operands want ops t) (outcomes want ops t).

Definition group_tree (want : bool) (ops : list Instrumentation) (t : node)
  : node :=
  tree_after op_mutate (operands want ops t) (tree_after op_check ops t).

Definition check_events (ops : list Instrumentation) (t : node) : list event :=
  CallCheck ops :: zip_with OpCheck ops (answers op_check ops t).

(** The events of one group of [Instrumentator.apply]: the count
    printed is the length of what the batch [apply] returned. *)
Definition apply_group_events (label : string)
    (ops : list Instrumentation) (t : node) : list event :=
  check_events ops t
  ++ CallApply (operands false ops t)
     :: zip_with OpApply (operands false ops t) (outcomes false ops t)
  ++ [Printed (label +:+ " " +:+
               PyStr.str (Z.of_nat (length (succeeded false ops t))))].

(** The events of one group of [Instrumentator.revert]: the count
    printed is the length of the applied side of the partition. *)
Definition revert_group_events (label : string)
    (ops : list Instrumentation) (t : node) : list event :=
  check_events ops t
  ++ CallRevert (operands true ops t)
     :: zip_with OpRevert (operands true ops t) (outcomes true ops t)
  ++ [Printed (label +:+ " " +:+
               PyStr.str (Z.of_nat (length (operands true ops t))))].

(** The events of one group of [Instrumentator.is_applied]. *)
Definition status_group_events (header : list event) (label : string)
    (ops : list Instrumentation) (t : node) : list event :=
  check_events ops t
  ++ header
  ++ [Printed (Instrumentator.ratio label
                 (length (operands true ops t))
                 (length (operands false ops t)))].
End Groups.

(** Groups run one after the other, each on the tree the one before
    left. *)
Fixpoint groups_events
    (events : string → list Instrumentation → node → list event)
    (next : list Instrumentation → node → node)
    (gs : list (string * list Instrumentation)) (t : node) : list event :=
  match gs with
  | [] => []
  | g :: gs' => events g.1 g.2 t ++ groups_events events next gs' (next g.2 t)
  end.

Fixpoint groups_tree (next : list Instrumentation → node → node)
    (gs : list (string * list Instrumentation)) (t : node) : node :=
  match gs with
  | [] => t
  | g :: gs' => groups_tree next gs' (next g.2 t)
  end.

(** The order of the blocks in [apply] and in [revert], with the
    label each prints. *)
Definition apply_order (g : Instrumentator.Groups)
  : list (string * list Instrumentation) :=
  let '(overrides, patches, copies, annotation_removal) := g in
  [("Overrides Applied", overrides); ("Patches Applied", patches);
   ("Copies Applied", copies); ("Annotations Removed", annotation_removal)].

Definition revert_order (g : Instrumentator.Groups)
  : list (string * list Instrumentation) :=
  let '(overrides, patches, copies, annotation_removal) := g in
  [("Annotations Reverted", annotation_removal); ("Overrides Reverted", overrides);
   ("Patches Reverted", patches); ("Copies Reverted", copies)].
End Reading.

(* ===================================================================== *)
(** ** The statements of the documentation, as definitions *)
(* ===================================================================== *)

Module Spec.
Import PathLib Instr.

(** [name] without its last [length suffix] characters. *)
Definition strip_suffix (suffix name : string) : string :=
  String.substring 0 (String.length name - String.length suffix) name.

(** The documented target of a patch file found at the relative path
    [rel]: the relative path with the patch suffix stripped from its
    final segment, resolved against the live root. *)
Definition patch_target (live rel : Path) : Path :=
  joinpath live (joinpath_str (parent rel) (strip_suffix ".patch" (name rel))).

(** The documented target of a script file: the relative path as it
    is, resolved against the live root. *)
Definition copy_target (live rel : Path) : Path := joinpath live rel.

Definition patch_op (base live file : Path) : Instrumentation :=
  PatchInstrumentation file (patch_target live (drop (length base) file)).

Definition copy_op (base live file : Path) : Instrumentation :=
  CopyInstrumentation file (copy_target live (drop (length base) file)).

(** The patch operation as the code builds it: the documented one,
    except that a file named exactly [.patch] keeps its name. *)
Definition patch_op_amended (base live file : Path) : Instrumentation :=
  if decide (name file = ".patch")
  then PatchInstrumentation file (joinpath live (drop (length base) file))
  else patch_op base live file.

(** Lexical normalisation of a path, as [os.path.normpath] does it on
    an absolute path: [.] and empty segments go, [..] removes the
    segment before it and is dropped at the root. *)
Definition normpath (p : Path) : Path :=
  foldl (λ acc seg,
           if decide (seg = "" ∨ seg = ".") then acc
           else if decide (seg = "..") then removelast acc
           else acc ++ [seg]) [] p.

(** [p] resolves inside [root]. *)
Definition inside (root p : Path) : bool :=
  bool_decide (normpath root `prefix_of` normpath p).

(** The file an operation reads and the file it changes. *)
Definition source (i : Instrumentation) : Path :=
  match i with
  | PatchInstrumentation patch _ => patch
  | CopyInstrumentation src _ => src
  | OverrideInstrumentation target _ => target
  | AnnotationRemoval target _ => target
  end.

Definition target (i : Instrumentation) : Path :=
  match i with
  | PatchInstrumentation _ original => original
  | CopyInstrumentation _ dst => dst
  | OverrideInstrumentation target _ => target
  | AnnotationRemoval target _ => target
  end.


(** An event that runs no operation's [apply] or [revert]. *)
Definition quiet (e : event) : Prop :=
  match e with
  | OpApply _ _ | OpRevert _ _ => False
  | _ => True
  end.

(** The four assignments [_load_settings] makes to [os.environ], as
    events and as the environment they leave. *)
Definition environment_events (info : AppInfo.t) (webroot_dir ini : Path)
  : list event :=
  [EnvSet "CAKEPHP_PATH" (str (AppInfo.cakephp_path info));
   EnvSet "APP_DIR" (str (AppInfo.app_dir info));
   EnvSet "WEBROOT_DIR" (str webroot_dir);
   EnvSet "INSTRUMENTATION_INI" (str ini)].

Definition environment_set (info : AppInfo.t) (webroot_dir ini : Path)
    (env : gmap string string) : gmap string string :=
  <["INSTRUMENTATION_INI" := str ini]>
    (<["WEBROOT_DIR" := str webroot_dir]>
       (<["APP_DIR" := str (AppInfo.app_dir info)]>
          (<["CAKEPHP_PATH" := str (AppInfo.cakephp_path info)]> env))).

(** An entry point sets the environment first: the four writes open
    its events, nothing is resolved, scanned or checked before them,
    and the environment it leaves holds them. *)
Definition sets_environment_first {A} (info : AppInfo.t)
    (webroot_dir ini : Path) (m : M A) (st : State) : Prop :=
  (∃ rest, events_of m st = environment_events info webroot_dir ini ++ rest)
  ∧ environ (m st).2 = environment_set info webroot_dir ini (environ st).
End Spec.

(* ===================================================================== *)
(** ** A small installation to evaluate the code on *)
(* ===================================================================== *)

Module Demo.
Import PathLib Instr.

Definition webroot_dir : Path := ["var"; "www"; "app"; "webroot"].
Definition app_dir : Path := ["var"; "www"; "app"].
Definition cakephp_path : Path := ["var"; "www"; "vendor"; "cakephp"].

Definition detect (version : string) : Path → node → AppInfo.t :=
  λ _ _, {| AppInfo.cakephp_path := cakephp_path;
            AppInfo.app_dir := app_dir;
            AppInfo.cakephp_version := version |}.

Definition load_webroot_settings : gmap string string → node → WebrootSettings.t :=
  λ _ _, {| WebrootSettings.instrumentation_ini := ["etc"; "instrumentation.ini"] |}.

(** Settings that declare [overrides] and [declared_copies] and keep
    the version-scoped resources in [/res]. *)
Definition settings_init (overrides declared_copies : list Instrumentation)
  : string → gmap string string → node → InstrumentationSettings :=
  λ _ _ _, {| patches := []; file_overrides := overrides;
              remove_annotations := []; copies := declared_copies;
              patch_dir := ["res"] |}.

(** A tree with [/res/cakephp/<key>/<sub>/] holding [entries], next
    to an installation with one file in the webroot. *)
Definition resources (key sub : string) (entries : list (string * node)) : node :=
  Dir [("res", Dir [("cakephp", Dir [(key, Dir [(sub, Dir entries)])])]);
       ("var", Dir [("www", Dir [("app", Dir [("webroot",
          Dir [("index.php", File "<?php")])])])])].

Definition initial (t : node) : State :=
  {| environ := ∅; tree := t; settings := None; log := [] |}.

(** A capability for evaluation: an operation counts as applied when
    its target is an existing file. *)
Definition exists_check : Instrumentation → node → node * bool :=
  λ i t, (t, match lookup t (Spec.target i) with
             | Some (File _) => true
             | _ => false
             end).

(** Mutations that always fail and leave the tree as it is, as on a
    read-only file system. *)
Definition failing : Instrumentation → node → node * bool := λ _ t, (t, false).

Definition stub : Instrumentation :=
  CopyInstrumentation ["res"; "stub.php"] ["var"; "www"; "app"; "webroot"; "index.php"].

Definition banner : Instrumentation :=
  OverrideInstrumentation ["var"; "www"; "app"; "webroot"; "banner.php"] "<?php".

(** The settings with nothing declared, and a state in which
    [_load_settings] already stored them. *)
Definition declared : InstrumentationSettings :=
  {| patches := []; file_overrides := []; remove_annotations := [];
     copies := []; patch_dir := ["res"] |}.

Definition loaded (t : node) : State :=
  {| environ := ∅; tree := t; settings := Some declared; log := [] |}.

(** Resources for version 4: a patch and, one level down, a script. *)
Definition tree_v4 : node :=
  resources "4" "APP_DIR"
    [("a.php.patch", File "--- a.php"); ("sub", Dir [("x.php", File "<?php")])].

(** A patch file named exactly [.patch]. *)
Definition tree_dot_patch : node := resources "4" "APP_DIR" [(".patch", File "")].

(** A patch file named [...patch]. *)
Definition tree_dots : node := resources "4" "APP_DIR" [("...patch", File "")].

(** Only the [WEBROOT] subtree exists. *)
Definition tree_webroot_only : node :=
  resources "4" "WEBROOT" [("x.php", File "<?php")].

(** Resources for version 3 only. *)
Definition tree_v3 : node :=
  resources "3" "APP_DIR" [("a.php.patch", File "--- a.php"); ("x.php", File "<?php")].

(** The entry points on this installation, with the declared
    overrides and copies and the detected version as parameters. *)
Definition apply (overrides declared_copies : list Instrumentation)
    (version : string) : M unit :=
  Instrumentator.apply exists_check failing (detect version)
    load_webroot_settings (settings_init overrides declared_copies) webroot_dir.

Definition revert (overrides declared_copies : list Instrumentation)
    (version : string) : M unit :=
  Instrumentator.revert exists_check failing (detect version)
    load_webroot_settings (settings_init overrides declared_copies) webroot_dir.

Definition load_patches (version : string) : Z → M (list Instrumentation) :=
  Instrumentator._load_cake_version_patches (detect version) webroot_dir.

Definition load_copies (version : string) : Z → M (list Instrumentation) :=
  Instrumentator._load_cake_version_copies (detect version) webroot_dir.
End Demo.

(* ===================================================================== *)
(** ** Further properties of the logs and of the tree *)
(* ===================================================================== *)

Module Extra.
Import PathLib Instr.

(** Events of loading: a write to the environment or a scan. *)
Definition loading (e : event) : Prop :=
  match e with
  | EnvSet _ _ | Glob _ _ => True
  | _ => False
  end.

(** Events that belong to no batch [apply], and to no batch [revert]. *)
Definition no_apply (e : event) : Prop :=
  match e with
  | CallApply _ | OpApply _ _ => False
  | _ => True
  end.

Definition no_revert (e : event) : Prop :=
  match e with
  | CallRevert _ | OpRevert _ _ => False
  | _ => True
  end.

(** The counts a log prints: [n] is the number of operations whose
    [apply] succeeded since the last batch [apply] began, and every
    line printed ends in that number. *)
Fixpoint tallied (n : nat) (l : list event) : Prop :=
  match l with
  | [] => True
  | e :: l' =>
      match e with
      | CallApply _ => tallied 0 l'
      | OpApply _ true => tallied (S n) l'
      | Printed line =>
          (∃ label, line = label +:+ " " +:+ PyStr.str (Z.of_nat n))
          ∧ tallied n l'
      | _ => tallied n l'
      end
  end.

(** The operations of a group that check as applied, and as not
    applied, on the tree [t]. *)
Definition applied_in (op_check : Instrumentation → node → node * bool)
    (t : node) (ops : list Instrumentation) : list Instrumentation :=
  List.filter (λ i, (op_check i t).2) ops.

Definition unapplied_in (op_check : Instrumentation → node → node * bool)
    (t : node) (ops : list Instrumentation) : list Instrumentation :=
  List.filter (λ i, negb (op_check i t).2) ops.

(** A segment that names an entry, as a test. *)
Definition plainb (nm : string) : bool :=
  negb (String.eqb nm "") && negb (String.eqb nm ".") && negb (String.eqb nm "..").

(** Every listing of the tree holds names of entries only. *)
Fixpoint plain_names (n : node) : bool :=
  match n with
  | File _ => true
  | Dir entries =>
      (fix over (es : list (string * node)) : bool :=
         match es with
         | [] => true
         | (nm, sub) :: rest => plainb nm && plain_names sub && over rest
         end) entries
  end.

End Extra.

(* ===================================================================== *)
(** ** Facts about the string and path operations *)
(* ===================================================================== *)

Section StringFacts.
Import PyStr.

Ltac decide_cmp :=
  repeat match goal with
    | |- context [N.ltb ?a ?b] => destruct (N.ltb_spec a b); try lia
    | |- context [N.leb ?a ?b] => destruct (N.leb_spec a b); try lia
    end.

Lemma app_cons a (x y : string) : String a x +:+ y = String a (x +:+ y).
Proof. reflexivity. Qed.

Lemma app_empty_l (y : string) : "" +:+ y = y.
Proof. reflexivity. Qed.

Lemma length_app (x y : string) :
  String.length (x +:+ y) = String.length x + String.length y.
Proof. induction x as [|a x IH]; [done|]. rewrite app_cons. simpl. by rewrite IH. Qed.

Lemma substring_app_l (x y : string) :
  String.substring 0 (String.length x) (x +:+ y) = x.
Proof.
  induction x as [|a x IH]; [by destruct y|].
  rewrite app_cons. simpl. by rewrite IH.
Qed.

Lemma rfind_from_absent c s i : occurs c s = false → rfind_from c s i = (-1)%Z.
Proof.
  revert i. induction s as [|a s IH]; intros i H; [done|].
  simpl in *. apply orb_false_iff in H as [Ha Hs].
  by rewrite IH, Ha.
Qed.

(** The last occurrence: after a prefix [x], at a [c] that does not
    occur again. *)
Lemma rfind_from_last c x y i :
  (0 <= i)%Z → occurs c y = false →
  rfind_from c (x +:+ String c y) i = (i + Z.of_nat (String.length x))%Z.
Proof.
  revert i. induction x as [|a x IH]; intros i Hi Hy.
  - rewrite app_empty_l. simpl. rewrite rfind_from_absent by done.
    simpl. rewrite Ascii.eqb_refl. lia.
  - rewrite app_cons. simpl rfind_from. rewrite IH by (done || lia).
    destruct (Z.leb_spec 0 (i + 1 + Z.of_nat (String.length x))); simpl String.length; lia.
Qed.

Lemma before_first_split c s :
  split c s = before_first c s :: tail (split c s).
Proof.
  induction s as [|a s IH]; [done|]. simpl.
  destruct (Ascii.eqb a c); [done|].
  rewrite IH. done.
Qed.

(** [int] on the forms Python accepts: a sign, leading zeros, single
    underscores and white space at both ends; decimal digits of any
    script (U+0664 ARABIC-INDIC DIGIT FOUR, U+FF14 FULLWIDTH DIGIT
    FOUR, U+1D7DC MATHEMATICAL DOUBLE-STRUCK DIGIT FOUR), which may
    be mixed; white space beyond ASCII (U+00A0, U+2003, U+3000). *)
Example int_accepts :
  int "4" = Some 4%Z
  ∧ int " -0_7 " = Some (-7)%Z
  ∧ int "+12" = Some 12%Z
  ∧ int (utf8 [1636]%N) = Some 4%Z
  ∧ int (utf8 [49; 1636; 65300; 120796]%N) = Some 1444%Z
  ∧ int (utf8 [160; 52; 8195; 12288]%N) = Some 4%Z.
Proof. vm_compute. done. Qed.

(** ... and on the forms it refuses: no digit, a sign apart from the
    digits, an underscore that is not between two digits, a base
    prefix, a dot, the separator U+001C (white space for
    [str.isspace], not for [int]), U+00B2 SUPERSCRIPT TWO (a digit,
    not a decimal digit), U+200B ZERO WIDTH SPACE. *)
Example int_refuses :
  int "" = None ∧ int " " = None ∧ int "+" = None ∧ int "- 4" = None
  ∧ int "4_" = None ∧ int "_4" = None ∧ int "4__2" = None
  ∧ int "0x10" = None ∧ int "4.2" = None ∧ int "4a" = None
  ∧ int (utf8 [28; 52]%N) = None
  ∧ int (utf8 [178]%N) = None
  ∧ int (utf8 [8203; 52]%N) = None.
Proof. vm_compute. done. Qed.

(** The limit on the number of digits: 4300 digits are read, 4301
    are refused, leading zeros counted. *)
Example int_digit_limit :
  (∃ n, int (utf8 (repeat 49%N (N.to_nat 4300))) = Some n)
  ∧ int (utf8 (repeat 49%N (N.to_nat 4301))) = None
  ∧ int (utf8 (repeat 48%N (N.to_nat 4301))) = None.
Proof. split; [|split]; [eexists|..]; vm_compute; reflexivity. Qed.

(** Every code point is read back from its UTF-8 bytes. *)
Lemma continuation_byte r :
  (r < 64)%N → continuation (ascii_of_N (128 + r)) = Some r.
Proof.
  intros Hr. unfold continuation. rewrite N_ascii_embedding by lia.
  decide_cmp. cbn [andb]. f_equal. lia.
Qed.

Lemma code_points_utf8_char c :
  (c <= 1114111)%N →
  code_points (ascii_of_N <$> utf8_char c) = Some [c].
Proof.
  intros Hc. unfold utf8_char.
  pose proof (N.mod_lt c 64 ltac:(lia)) as Hr0.
  pose proof (N.div_mod c 64 ltac:(lia)) as Hc0.
  pose proof (N.mod_lt (c / 64) 64 ltac:(lia)) as Hr1.
  pose proof (N.div_mod (c / 64) 64 ltac:(lia)) as Hc1.
  pose proof (N.mod_lt (c / 64 / 64) 64 ltac:(lia)) as Hr2.
  pose proof (N.div_mod (c / 64 / 64) 64 ltac:(lia)) as Hc2.
  replace (c / 4096)%N with (c / 64 / 64)%N
    by (by rewrite N.Div0.div_div).
  replace (c / 262144)%N with (c / 64 / 64 / 64)%N
    by (by rewrite !N.Div0.div_div).
  set (r0 := (c mod 64)%N) in *. set (q0 := (c / 64)%N) in *.
  set (r1 := (q0 mod 64)%N) in *. set (q1 := (q0 / 64)%N) in *.
  set (r2 := (q1 mod 64)%N) in *. set (q2 := (q1 / 64)%N) in *.
  clearbody r0 q0 r1 q1 r2 q2.
  destruct (N.ltb_spec c 128); [|destruct (N.ltb_spec c 2048);
    [|destruct (N.ltb_spec c 65536)]];
    cbn [fmap list_fmap code_points];
    rewrite ?continuation_byte by lia;
    rewrite N_ascii_embedding by lia; decide_cmp;
    cbn [andb fmap option_fmap option_map];
    do 2 f_equal; lia.
Qed.
End StringFacts.

Section PathFacts.
Import PathLib.

Lemma fnmatch_literal pat s : literal pat = true → fnmatch pat s = true ↔ s = pat.
Proof.
  revert s. induction pat as [|c pat IH]; intros s Hl.
  - destruct s; simpl; split; intros; done.
  - simpl in Hl. apply andb_true_iff in Hl as [Hl Hr].
    apply andb_true_iff in Hl as [Hstar Hq].
    apply negb_true_iff in Hstar, Hq.
    simpl. rewrite Hstar, Hq. destruct s as [|d s]; [done|].
    simpl. rewrite andb_true_iff, IH by done.
    split.
    + intros [Hcd ->]. by apply Ascii.eqb_eq in Hcd as ->.
    + intros [= -> ->]. by rewrite Ascii.eqb_refl.
Qed.

(** [*suffix] matches exactly the names that end in [suffix]. *)
Lemma fnmatch_star suffix s :
  literal suffix = true →
  fnmatch (String "*" suffix) s = true ↔ ∃ x, s = x +:+ suffix.
Proof.
  intros Hl. simpl.
  induction s as [|a s IH].
  - rewrite orb_false_r, fnmatch_literal by done. split.
    + intros <-. by exists "".
    + intros [x Hx]. destruct x; [done|]. by rewrite app_cons in Hx.
  - rewrite orb_true_iff, fnmatch_literal by done. rewrite IH. split.
    + intros [->|[x ->]]; [by exists ""|]. by exists (String a x).
    + intros [x Hx]. destruct x as [|b x].
      * left. by rewrite app_empty_l in Hx.
      * right. rewrite app_cons in Hx. injection Hx as -> ->. by exists x.
Qed.

Lemma relative_to_app (base rel : Path) : relative_to (base ++ rel) base = Some rel.
Proof.
  induction base as [|b base IH]; [reflexivity|]. simpl.
  by rewrite decide_True.
Qed.

Lemma name_app (p : Path) (nm : string) : name (p ++ [nm]) = nm.
Proof. unfold name. apply last_last. Qed.

Lemma parent_app (p : Path) (nm : string) : parent (p ++ [nm]) = p.
Proof. unfold parent. apply removelast_last. Qed.

(** [stem] on a name that ends in [.patch]: the suffix goes, unless
    nothing stands before it. *)
Lemma stem_patch (p : Path) (x : string) :
  stem (p ++ [x +:+ ".patch"]) = if decide (x = "") then ".patch" else x.
Proof.
  unfold stem. rewrite name_app.
  unfold PyStr.rfind.
  rewrite (rfind_from_last "."%char x "patch" 0) by done.
  unfold PyStr.len, PyStr.slice_to. rewrite length_app. simpl String.length.
  destruct x as [|a x].
  - done.
  - rewrite decide_False by done.
    replace (_ && _) with true.
    + rewrite Z.add_0_l, Nat2Z.id. apply substring_app_l.
    + symmetry. apply andb_true_iff. split.
      * apply Z.ltb_lt. simpl String.length. lia.
      * apply Z.ltb_lt. lia.
Qed.
End PathFacts.

Section TreeFacts.
Import PathLib.

(** Induction on trees, through the listings. *)
Lemma node_ind' (P : node → Prop) :
  (∀ c, P (File c)) →
  (∀ entries, Forall (λ e, P e.2) entries → P (Dir entries)) →
  ∀ n, P n.
Proof.
  intros HF HD. fix IH 1. intros [c|entries]; [apply HF|].
  apply HD. induction entries as [|[nm sub] rest IHrest]; constructor.
  - apply IH.
  - apply IHrest.
Qed.

(** Every directory the recursive selector visits lies at or below
    the starting directory. *)
Lemma iterate_directories_below n :
  ∀ base d, d ∈ iterate_directories base n → ∃ rel, d.1 = base ++ rel.
Proof.
  induction n as [c|entries IH] using node_ind'; intros base d Hd.
  - by apply elem_of_nil in Hd.
  - simpl in Hd. apply elem_of_cons in Hd as [->|Hd].
    { exists []. by rewrite app_nil_r. }
    induction entries as [|[nm sub] rest IHrest]; [by apply elem_of_nil in Hd|].
    apply Forall_cons in IH as [Hsub Hrest].
    apply elem_of_app in Hd as [Hd|Hd].
    + destruct (Hsub _ _ Hd) as [rel ->].
      exists (nm :: rel). by rewrite <- app_assoc.
    + by apply IHrest.
Qed.

(** What [rglob] yields: paths strictly below the directory whose
    last segment matches the pattern. *)
Lemma rglob_elem t dir pat file :
  file ∈ rglob t dir pat →
  ∃ rel nm, file = dir ++ rel ++ [nm] ∧ fnmatch pat nm = true.
Proof.
  unfold rglob. destruct (lookup t dir) as [[c|entries]|] eqn:Hl;
    try (intros H; by apply elem_of_nil in H).
  intros H. apply list_elem_of_bind in H as (d & Hfile & Hd).
  apply iterate_directories_below in Hd as [rel Hrel].
  unfold select_from in Hfile.
  apply list_elem_of_fmap in Hfile as ([nm sub] & -> & He).
  apply list_elem_of_filter in He as [Hm _].
  exists rel, nm. destruct d as [dp des]. simpl in *. subst dp.
  by rewrite <- app_assoc.
Qed.

Lemma rglob_not_dir t dir pat : is_dir t dir = false → rglob t dir pat = [].
Proof.
  unfold is_dir, rglob. by destruct (lookup t dir) as [[c|entries]|].
Qed.

Lemma walk_app up cur p q :
  walk up cur (p ++ q) = walk up cur p ≫= λ '(up', cur'), walk up' cur' q.
Proof.
  revert up cur. induction p as [|seg p IH]; intros up cur; [done|].
  simpl. destruct cur as [c|entries]; [done|].
  repeat case_decide; try apply IH.
  - destruct up; apply IH.
  - destruct (child seg entries); [apply IH|done].
Qed.

Lemma lookup_snoc t p nm :
  plain nm → lookup t (p ++ [nm]) = lookup t p ≫= entry nm.
Proof.
  intros (H1 & H2 & H3). unfold lookup. rewrite walk_app.
  destruct (walk [] t p) as [[up cur]|]; [|done]. simpl.
  destruct cur as [c|entries]; [done|].
  unfold entry. destruct (decide (nm = "" ∨ nm = ".")); [tauto|].
  destruct (decide (nm = "..")); [done|].
  by destruct (child nm entries).
Qed.

Lemma joinpath_str_plain p nm : nm ≠ "" → nm ≠ "." → joinpath_str p nm = p ++ [nm].
Proof. intros. unfold joinpath_str. by rewrite decide_False by tauto. Qed.
End TreeFacts.

(* ===================================================================== *)
(** ** Running the computations *)
(* ===================================================================== *)

Section Runs.
Import PathLib Instr.

Lemma add_log_nil st : add_log st [] = st.
Proof. destruct st. unfold add_log. simpl. by rewrite app_nil_r. Qed.

Lemma add_log_add_log st l1 l2 : add_log (add_log st l1) l2 = add_log st (l1 ++ l2).
Proof. unfold add_log. simpl. by rewrite app_assoc. Qed.

Lemma events_of_add_log {A} (m : M A) st r evs :
  m st = (r, add_log st evs) → events_of m st = evs.
Proof.
  intros H. unfold events_of. rewrite H. simpl. by rewrite drop_app_length.
Qed.

(** A loop whose body only appends [f x] computes a map. *)
Lemma for_each_map {A B} (f : A → B) (body : list B → A → M (list B)) xs acc st :
  (∀ acc x, x ∈ xs → body acc x st = (inr (acc ++ [f x]), st)) →
  for_each xs acc body st = (inr (acc ++ (f <$> xs)), st).
Proof.
  revert acc. induction xs as [|x xs IH]; intros acc Hbody.
  - simpl. by rewrite app_nil_r.
  - simpl. unfold mbind, M_bind, bind.
    rewrite Hbody by apply list_elem_of_here.
    rewrite IH.
    + by rewrite <- app_assoc.
    + intros acc' y Hy. apply Hbody. by apply list_elem_of_further.
Qed.
End Runs.

Section ResolverRuns.
Import PathLib Instr Reading.
Variable detect : Path → node → AppInfo.t.
Variable webroot_dir : Path.

Lemma rglob_relative_to t base pat file :
  file ∈ PathLib.rglob t base pat →
  relative_to file base = Some (drop (length base) file).
Proof.
  intros (rel & nm & -> & _)%rglob_elem.
  by rewrite relative_to_app, drop_app_length.
Qed.

Lemma run_load_patches s st major :
  settings st = Some s →
  Instrumentator._load_cake_version_patches detect webroot_dir major st
  = (inr (discovered detect webroot_dir patch_for "*.patch" s (tree st) major),
     add_log st (globs "*.patch" s major)).
Proof.
  intros Hs. unfold Instrumentator._load_cake_version_patches.
  unfold mbind, M_bind, bind, self_settings. rewrite Hs.
  unfold Instrumentator.new_AppInfo, get_tree, mbind, M_bind, bind, rglob.
  cbn [tree add_log mret M_ret ret].
  fold (version_dir s major).
  set (v := version_dir s major).
  repeat (erewrite (for_each_map (patch_for _ _));
    [|intros acc x Hx; unfold Instrumentator.relative_to_or_raise;
      cbn [tree add_log] in Hx;
      rewrite (rglob_relative_to _ _ _ _ Hx); reflexivity]).
  rewrite !add_log_add_log. cbn [tree add_log].
  unfold discovered, roots, globs. simpl. subst v.
  rewrite app_nil_r, <- app_assoc. reflexivity.
Qed.

Lemma run_load_copies s st major :
  settings st = Some s →
  Instrumentator._load_cake_version_copies detect webroot_dir major st
  = (inr (discovered detect webroot_dir copy_for "*.php" s (tree st) major),
     add_log st (globs "*.php" s major)).
Proof.
  intros Hs. unfold Instrumentator._load_cake_version_copies.
  unfold mbind, M_bind, bind, self_settings. rewrite Hs.
  unfold Instrumentator.new_AppInfo, get_tree, mbind, M_bind, bind, rglob.
  cbn [tree add_log mret M_ret ret].
  fold (version_dir s major).
  set (v := version_dir s major).
  repeat (erewrite (for_each_map (copy_for _ _));
    [|intros acc x Hx; unfold Instrumentator.relative_to_or_raise;
      cbn [tree add_log] in Hx;
      rewrite (rglob_relative_to _ _ _ _ Hx); reflexivity]).
  rewrite !add_log_add_log. cbn [tree add_log].
  unfold discovered, roots, globs. simpl. subst v.
  rewrite app_nil_r, <- app_assoc. reflexivity.
Qed.
End ResolverRuns.

Section LoadRuns.
Import PathLib Instr Reading.
Variable detect : Path → node → AppInfo.t.
Variable load_webroot_settings : gmap string string → node → WebrootSettings.t.
Variable InstrumentationSettings_init :
  string → gmap string string → node → InstrumentationSettings.
Variable webroot_dir : Path.

Abbreviation after_load_settings :=
  (after_load_settings detect webroot_dir load_webroot_settings
                       InstrumentationSettings_init).
Abbreviation loaded_settings :=
  (loaded_settings detect webroot_dir load_webroot_settings
                   InstrumentationSettings_init).
Abbreviation _load_instrumentations :=
  (Instrumentator._load_instrumentations detect load_webroot_settings
     InstrumentationSettings_init webroot_dir).

Lemma run_load_settings st :
  Instrumentator._load_settings detect load_webroot_settings
    InstrumentationSettings_init webroot_dir st
  = (inr (), after_load_settings st).
Proof.
  unfold Instrumentator._load_settings, Instrumentator.new_AppInfo.
  unfold mbind, M_bind, bind, get_tree, get_environ, setenv, getenv,
    set_settings, mret, M_ret, ret.
  cbn [environ tree add_log with_environ with_settings settings log].
  rewrite lookup_insert_eq.
  unfold after_load_settings, Reading.after_load_settings, Reading.loaded_settings,
    loaded_environ, env_writes, add_log, with_settings, with_environ.
  cbn [environ tree settings log foldl fmap list_fmap fst snd].
  rewrite <- !app_assoc. reflexivity.
Qed.

Lemma tree_after_load_settings st : tree (after_load_settings st) = tree st.
Proof. reflexivity. Qed.

Lemma settings_after_load_settings st :
  settings (after_load_settings st) = Some (loaded_settings st).
Proof. reflexivity. Qed.

Lemma run_major_of version st :
  Instrumentator.major_of version st = (parse_major version, st).
Proof.
  unfold Instrumentator.major_of, parse_major.
  destruct (PyStr.split "." version) as [|first rest]; [done|].
  by destruct (PyStr.int first).
Qed.

(** The whole of [_load_instrumentations]. *)
Lemma run_load_instrumentations st :
  _load_instrumentations st =
  match parse_major (AppInfo.cakephp_version (detect webroot_dir (tree st))) with
  | inr major =>
      (inr (loaded_groups detect webroot_dir load_webroot_settings
              InstrumentationSettings_init st major),
       after_load detect webroot_dir load_webroot_settings
              InstrumentationSettings_init st major)
  | inl e => (inl e, after_load_settings st)
  end.
Proof.
  unfold Instrumentator._load_instrumentations.
  unfold mbind at 1, M_bind at 1, bind at 1.
  rewrite run_load_settings.
  unfold Instrumentator._load_settings_patches,
    Instrumentator._load_settings_overrides,
    Instrumentator._load_annotations_removal, Instrumentator.new_AppInfo.
  unfold mbind, M_bind, bind, self_settings, get_tree.
  do 4 (rewrite settings_after_load_settings; cbn [mret M_ret ret]).
  rewrite run_major_of, tree_after_load_settings.
  destruct (parse_major _) as [e|major]; [done|].
  rewrite run_load_patches with (s := loaded_settings st) by done.
  rewrite run_load_copies with (s := loaded_settings st) by done.
  rewrite add_log_add_log. reflexivity.
Qed.
End LoadRuns.

Section BatchRuns.
Import PathLib Instr Reading.

Lemma with_tree_same st : with_tree st (tree st) = st.
Proof. by destruct st. Qed.

Lemma run_mutate_each f ev ops st :
  mutate_each f ev ops st
  = (inr (select true ops (answers f ops (tree st))),
     add_log (with_tree st (tree_after f ops (tree st)))
             (zip_with ev ops (answers f ops (tree st)))).
Proof.
  revert st. induction ops as [|i ops IH]; intros st.
  - unfold answers, tree_after. simpl.
    by rewrite with_tree_same, add_log_nil.
  - simpl. unfold mbind, M_bind, bind, run_op.
    destruct (f i (tree st)) as [t b] eqn:Hf.
    rewrite IH. unfold answers, tree_after. simpl. rewrite Hf. simpl.
    unfold add_log, with_tree. simpl. rewrite <- app_assoc. simpl.
    by destruct b.
Qed.

Lemma run_check_each op_check ops st :
  check_each op_check ops st
  = (inr (partition_of op_check ops (tree st)),
     add_log (with_tree st (tree_after op_check ops (tree st)))
             (zip_with OpCheck ops (answers op_check ops (tree st)))).
Proof.
  revert st. induction ops as [|i ops IH]; intros st.
  - unfold partition_of, answers, tree_after. simpl.
    by rewrite with_tree_same, add_log_nil.
  - simpl. unfold mbind, M_bind, bind, run_op.
    destruct (op_check i (tree st)) as [t b] eqn:Hf.
    rewrite IH. unfold partition_of, answers, tree_after. simpl. rewrite Hf. simpl.
    unfold add_log, with_tree. simpl. rewrite <- app_assoc. simpl.
    by destruct b.
Qed.

Lemma run_check op_check ops st :
  Instr.check op_check ops st
  = (inr (partition_of op_check ops (tree st)),
     add_log (with_tree st (tree_after op_check ops (tree st)))
             (check_events op_check ops (tree st))).
Proof.
  unfold Instr.check, mbind, M_bind, bind, emit.
  rewrite run_check_each. unfold check_events, add_log, with_tree. simpl.
  by rewrite <- app_assoc.
Qed.

Lemma run_apply op_apply ops st :
  Instr.apply op_apply ops st
  = (inr (select true ops (answers op_apply ops (tree st))),
     add_log (with_tree st (tree_after op_apply ops (tree st)))
             (CallApply ops :: zip_with OpApply ops (answers op_apply ops (tree st)))).
Proof.
  unfold Instr.apply, mbind, M_bind, bind, emit.
  rewrite run_mutate_each. unfold add_log, with_tree. simpl.
  by rewrite <- app_assoc.
Qed.

Lemma run_revert op_revert ops st :
  Instr.revert op_revert ops st
  = (inr (select true ops (answers op_revert ops (tree st))),
     add_log (with_tree st (tree_after op_revert ops (tree st)))
             (CallRevert ops :: zip_with OpRevert ops (answers op_revert ops (tree st)))).
Proof.
  unfold Instr.revert, mbind, M_bind, bind, emit.
  rewrite run_mutate_each. unfold add_log, with_tree. simpl.
  by rewrite <- app_assoc.
Qed.
End BatchRuns.

Section OrchestratorRuns.
Import PathLib Instr Reading.
Variable op_check : Instrumentation → node → node * bool.
Variable op_apply : Instrumentation → node → node * bool.
Variable op_revert : Instrumentation → node → node * bool.
Variable detect : Path → node → AppInfo.t.
Variable load_webroot_settings : gmap string string → node → WebrootSettings.t.
Variable InstrumentationSettings_init :
  string → gmap string string → node → InstrumentationSettings.
Variable webroot_dir : Path.

Abbreviation after_load_settings' :=
  (after_load_settings detect webroot_dir load_webroot_settings
                       InstrumentationSettings_init).
Abbreviation after_load' :=
  (after_load detect webroot_dir load_webroot_settings
              InstrumentationSettings_init).
Abbreviation loaded_groups' :=
  (loaded_groups detect webroot_dir load_webroot_settings
                 InstrumentationSettings_init).
Abbreviation detected_version st :=
  (AppInfo.cakephp_version (detect webroot_dir (tree st))).

Lemma tree_log_tree (S : State) t l : tree (add_log (with_tree S t) l) = t.
Proof. reflexivity. Qed.

Lemma state_norm (S : State) t1 l1 t2 l2 :
  add_log (with_tree (add_log (with_tree S t1) l1) t2) l2
  = add_log (with_tree S t2) (l1 ++ l2).
Proof. unfold add_log, with_tree. simpl. by rewrite app_assoc. Qed.

Lemma state_start (S : State) : S = add_log (with_tree S (tree S)) [].
Proof. by rewrite with_tree_same, add_log_nil. Qed.

(** One block of [apply], followed by [rest]. *)
Lemma run_apply_group {B} label ops (rest : M B) S t l :
  ('(_, unapplied) ← Instr.check op_check ops;
   unapplied ← Instr.apply op_apply unapplied;
   print2 label (length unapplied);; rest) (add_log (with_tree S t) l)
  = rest (add_log (with_tree S (group_tree op_check op_apply false ops t))
                  (l ++ apply_group_events op_check op_apply label ops t)).
Proof.
  unfold mbind, M_bind, bind.
  rewrite run_check, tree_log_tree. cbn [partition_of].
  rewrite run_apply, tree_log_tree.
  unfold print2, print, emit.
  rewrite add_log_add_log, !state_norm.
  unfold apply_group_events, group_tree, succeeded, outcomes, operands.
  rewrite <- ?app_assoc. reflexivity.
Qed.

(** The last block of [apply]. *)
Lemma run_apply_last label ops S t l :
  ('(_, unapplied) ← Instr.check op_check ops;
   unapplied ← Instr.apply op_apply unapplied;
   print2 label (length unapplied)) (add_log (with_tree S t) l)
  = (inr (), add_log (with_tree S (group_tree op_check op_apply false ops t))
                     (l ++ apply_group_events op_check op_apply label ops t)).
Proof.
  unfold mbind, M_bind, bind.
  rewrite run_check, tree_log_tree. cbn [partition_of].
  rewrite run_apply, tree_log_tree.
  unfold print2, print, emit.
  rewrite add_log_add_log, !state_norm.
  unfold apply_group_events, group_tree, succeeded, outcomes, operands.
  rewrite <- ?app_assoc. reflexivity.
Qed.

(** One block of [revert], followed by [rest], and the last one. *)
Lemma run_revert_group {B} label ops (rest : M B) S t l :
  ('(applied, _) ← Instr.check op_check ops;
   Instr.revert op_revert applied;;
   print2 label (length applied);; rest) (add_log (with_tree S t) l)
  = rest (add_log (with_tree S (group_tree op_check op_revert true ops t))
                  (l ++ revert_group_events op_check op_revert label ops t)).
Proof.
  unfold mbind, M_bind, bind.
  rewrite run_check, tree_log_tree. cbn [partition_of].
  rewrite run_revert, tree_log_tree.
  unfold print2, print, emit.
  rewrite add_log_add_log, !state_norm.
  unfold revert_group_events, group_tree, outcomes, operands.
  rewrite <- ?app_assoc. reflexivity.
Qed.

Lemma run_revert_last label ops S t l :
  ('(applied, _) ← Instr.check op_check ops;
   Instr.revert op_revert applied;;
   print2 label (length applied)) (add_log (with_tree S t) l)
  = (inr (), add_log (with_tree S (group_tree op_check op_revert true ops t))
                     (l ++ revert_group_events op_check op_revert label ops t)).
Proof.
  unfold mbind, M_bind, bind.
  rewrite run_check, tree_log_tree. cbn [partition_of].
  rewrite run_revert, tree_log_tree.
  unfold print2, print, emit.
  rewrite add_log_add_log, !state_norm.
  unfold revert_group_events, group_tree, outcomes, operands.
  rewrite <- ?app_assoc. reflexivity.
Qed.

(** One block of [is_applied] with the lines it prints before the
    ratio, followed by [rest], and the last one. *)
Lemma run_status_first {B} label ops (rest : M B) S t l :
  ('(applied, unapplied) ← Instr.check op_check ops;
   print "Applied / Unapplied";;
   print (Instrumentator.ratio label (length applied) (length unapplied));;
   rest) (add_log (with_tree S t) l)
  = rest (add_log (with_tree S (tree_after op_check ops t))
                  (l ++ status_group_events op_check
                          [Printed "Applied / Unapplied"] label ops t)).
Proof.
  unfold mbind, M_bind, bind.
  rewrite run_check. cbn [partition_of].
  unfold print, emit.
  rewrite ?add_log_add_log, !state_norm, ?tree_log_tree.
  unfold status_group_events, operands.
  rewrite <- ?app_assoc. reflexivity.
Qed.

Lemma run_status_group {B} label ops (rest : M B) S t l :
  ('(applied, unapplied) ← Instr.check op_check ops;
   print (Instrumentator.ratio label (length applied) (length unapplied));;
   rest) (add_log (with_tree S t) l)
  = rest (add_log (with_tree S (tree_after op_check ops t))
                  (l ++ status_group_events op_check [] label ops t)).
Proof.
  unfold mbind, M_bind, bind.
  rewrite run_check. cbn [partition_of].
  unfold print, emit.
  rewrite ?add_log_add_log, !state_norm, ?tree_log_tree.
  unfold status_group_events, operands.
  rewrite <- ?app_assoc. reflexivity.
Qed.

Lemma run_status_last label ops S t l :
  ('(applied, unapplied) ← Instr.check op_check ops;
   print (Instrumentator.ratio label (length applied) (length unapplied)))
    (add_log (with_tree S t) l)
  = (inr (), add_log (with_tree S (tree_after op_check ops t))
                     (l ++ status_group_events op_check [] label ops t)).
Proof.
  unfold mbind, M_bind, bind.
  rewrite run_check. cbn [partition_of].
  unfold print, emit.
  rewrite ?add_log_add_log, !state_norm, ?tree_log_tree.
  unfold status_group_events, operands.
  rewrite <- ?app_assoc. reflexivity.
Qed.

Lemma run_apply_method st :
  Instrumentator.apply op_check op_apply detect load_webroot_settings
    InstrumentationSettings_init webroot_dir st =
  match parse_major (detected_version st) with
  | inr major =>
      let g := apply_order (loaded_groups' st major) in
      (inr (),
       add_log (with_tree (after_load' st major)
                  (groups_tree (group_tree op_check op_apply false) g (tree st)))
               (groups_events (apply_group_events op_check op_apply)
                  (group_tree op_check op_apply false) g (tree st)))
  | inl e => (inl e, after_load_settings' st)
  end.
Proof.
  unfold Instrumentator.apply.
  unfold mbind at 1, M_bind at 1, bind at 1.
  rewrite run_load_instrumentations.
  destruct (parse_major _) as [e|major]; [done|].
  destruct (loaded_groups' st major) as [[[o p] c] a] eqn:Hg.
  rewrite (state_start (after_load' st major)) at 1.
  change (tree (after_load' st major)) with (tree st).
  do 3 rewrite run_apply_group. rewrite run_apply_last.
  cbn [apply_order groups_events groups_tree fst snd app].
  by rewrite app_nil_r, <- ?app_assoc.
Qed.

Lemma run_revert_method st :
  Instrumentator.revert op_check op_revert detect load_webroot_settings
    InstrumentationSettings_init webroot_dir st =
  match parse_major (detected_version st) with
  | inr major =>
      let g := revert_order (loaded_groups' st major) in
      (inr (),
       add_log (with_tree (after_load' st major)
                  (groups_tree (group_tree op_check op_revert true) g (tree st)))
               (groups_events (revert_group_events op_check op_revert)
                  (group_tree op_check op_revert true) g (tree st)))
  | inl e => (inl e, after_load_settings' st)
  end.
Proof.
  unfold Instrumentator.revert.
  unfold mbind at 1, M_bind at 1, bind at 1.
  rewrite run_load_instrumentations.
  destruct (parse_major _) as [e|major]; [done|].
  destruct (loaded_groups' st major) as [[[o p] c] a] eqn:Hg.
  rewrite (state_start (after_load' st major)) at 1.
  change (tree (after_load' st major)) with (tree st).
  do 3 rewrite run_revert_group. rewrite run_revert_last.
  cbn [revert_order groups_events groups_tree fst snd app].
  by rewrite app_nil_r, <- ?app_assoc.
Qed.

Lemma run_is_applied_method st :
  Instrumentator.is_applied op_check detect load_webroot_settings
    InstrumentationSettings_init webroot_dir st =
  match parse_major (detected_version st) with
  | inr major =>
      let '(o, p, c, a) := loaded_groups' st major in
      let rest := [("Patches", p); ("Copies", c); ("Annotations", a)] in
      let t1 := tree_after op_check o (tree st) in
      (inr (),
       add_log (with_tree (after_load' st major)
                  (groups_tree (tree_after op_check) rest t1))
               (status_group_events op_check [Printed "Applied / Unapplied"]
                  "Overrides" o (tree st)
                ++ groups_events (status_group_events op_check [])
                     (tree_after op_check) rest t1))
  | inl e => (inl e, after_load_settings' st)
  end.
Proof.
  unfold Instrumentator.is_applied.
  unfold mbind at 1, M_bind at 1, bind at 1.
  rewrite run_load_instrumentations.
  destruct (parse_major _) as [e|major]; [done|].
  destruct (loaded_groups' st major) as [[[o p] c] a] eqn:Hg.
  rewrite (state_start (after_load' st major)) at 1.
  change (tree (after_load' st major)) with (tree st).
  rewrite run_status_first. do 2 rewrite run_status_group.
  rewrite run_status_last.
  cbn [groups_events groups_tree fst snd app].
  by rewrite app_nil_r, <- ?app_assoc.
Qed.
End OrchestratorRuns.

(* ===================================================================== *)
(** ** The events of the three entry points *)
(* ===================================================================== *)

Section EntryPoints.
Import PathLib Instr Reading.
Variable op_check : Instrumentation → node → node * bool.
Variable op_apply : Instrumentation → node → node * bool.
Variable op_revert : Instrumentation → node → node * bool.
Variable detect : Path → node → AppInfo.t.
Variable load_webroot_settings : gmap string string → node → WebrootSettings.t.
Variable InstrumentationSettings_init :
  string → gmap string string → node → InstrumentationSettings.
Variable webroot_dir : Path.

Abbreviation apply_m :=
  (Instrumentator.apply op_check op_apply detect load_webroot_settings
     InstrumentationSettings_init webroot_dir).
Abbreviation revert_m :=
  (Instrumentator.revert op_check op_revert detect load_webroot_settings
     InstrumentationSettings_init webroot_dir).
Abbreviation is_applied_m :=
  (Instrumentator.is_applied op_check detect load_webroot_settings
     InstrumentationSettings_init webroot_dir).
Abbreviation load_m :=
  (Instrumentator._load_instrumentations detect load_webroot_settings
     InstrumentationSettings_init webroot_dir).
Abbreviation groups_at st major :=
  (loaded_groups detect webroot_dir load_webroot_settings
     InstrumentationSettings_init st major).
Abbreviation load_events_at st major :=
  (load_events detect webroot_dir load_webroot_settings
     InstrumentationSettings_init st major).
Abbreviation env_events_at st :=
  (env_events detect webroot_dir load_webroot_settings st).
Abbreviation version_at st :=
  (AppInfo.cakephp_version (detect webroot_dir (tree st))).

Lemma log_after_load st major :
  log (after_load detect webroot_dir load_webroot_settings
         InstrumentationSettings_init st major)
  = log st ++ load_events_at st major.
Proof.
  unfold after_load, after_load_settings, load_events, env_events, add_log.
  cbn [log with_settings with_environ]. by rewrite <- app_assoc.
Qed.

Lemma events_of_log {A} (m : M A) st evs :
  log (m st).2 = log st ++ evs → events_of m st = evs.
Proof. intros H. unfold events_of. rewrite H. apply drop_app_length. Qed.

Lemma events_of_failed_load {A} (m : M A) st r :
  m st = (r, after_load_settings detect webroot_dir load_webroot_settings
               InstrumentationSettings_init st) →
  events_of m st = env_events_at st.
Proof. intros H. apply events_of_log. by rewrite H. Qed.

Lemma events_of_load st major :
  parse_major (version_at st) = inr major →
  events_of load_m st = load_events_at st major.
Proof.
  intros Hp. apply events_of_log.
  rewrite run_load_instrumentations, Hp. apply log_after_load.
Qed.

Lemma events_of_apply st major :
  parse_major (version_at st) = inr major →
  events_of apply_m st
  = load_events_at st major
    ++ groups_events (apply_group_events op_check op_apply)
         (group_tree op_check op_apply false)
         (apply_order (groups_at st major)) (tree st).
Proof.
  intros Hp. apply events_of_log.
  rewrite run_apply_method, Hp. cbn [snd log add_log with_tree].
  by rewrite log_after_load, <- app_assoc.
Qed.

Lemma events_of_revert st major :
  parse_major (version_at st) = inr major →
  events_of revert_m st
  = load_events_at st major
    ++ groups_events (revert_group_events op_check op_revert)
         (group_tree op_check op_revert true)
         (revert_order (groups_at st major)) (tree st).
Proof.
  intros Hp. apply events_of_log.
  rewrite run_revert_method, Hp. cbn [snd log add_log with_tree].
  by rewrite log_after_load, <- app_assoc.
Qed.

Lemma events_of_is_applied st major :
  parse_major (version_at st) = inr major →
  ∃ rest, events_of is_applied_m st = load_events_at st major ++ rest.
Proof.
  intros Hp. destruct (groups_at st major) as [[[o p] c] a] eqn:Hg.
  eexists. apply events_of_log.
  rewrite run_is_applied_method, Hp, Hg.
  cbn [snd log add_log with_tree].
  rewrite log_after_load, <- app_assoc. reflexivity.
Qed.

(** *** The order of the groups *)

Lemma check_calls_app l1 l2 :
  check_calls (l1 ++ l2) = check_calls l1 ++ check_calls l2.
Proof. apply omap_app. Qed.

Lemma check_calls_ops (ev : Instrumentation → bool → event) ops bs :
  (∀ i b, match ev i b with CallCheck _ => False | _ => True end) →
  check_calls (zip_with ev ops bs) = [].
Proof.
  intros Hev. revert bs. induction ops as [|i ops IH]; intros [|b bs]; try done.
  simpl. specialize (Hev i b). unfold check_calls in *. simpl.
  destruct (ev i b); try done; apply IH.
Qed.





(** *** Mutation is gated by check *)








Lemma events_of_apply_failed st e :
  parse_major (version_at st) = inl e →
  events_of apply_m st = env_events_at st.
Proof.
  intros Hp. eapply events_of_failed_load. by rewrite run_apply_method, Hp.
Qed.

Lemma events_of_revert_failed st e :
  parse_major (version_at st) = inl e →
  events_of revert_m st = env_events_at st.
Proof.
  intros Hp. eapply events_of_failed_load. by rewrite run_revert_method, Hp.
Qed.

Lemma events_of_is_applied_failed st e :
  parse_major (version_at st) = inl e →
  events_of is_applied_m st = env_events_at st.
Proof.
  intros Hp. eapply events_of_failed_load. by rewrite run_is_applied_method, Hp.
Qed.


(** *** The environment is set first *)

Lemma env_events_eq st :
  env_events_at st
  = Spec.environment_events (detect webroot_dir (tree st)) webroot_dir
      (WebrootSettings.instrumentation_ini
         (load_webroot_settings (environ st) (tree st))).
Proof. reflexivity. Qed.

Lemma environ_after_load_settings st :
  environ (after_load_settings detect webroot_dir load_webroot_settings
             InstrumentationSettings_init st)
  = Spec.environment_set (detect webroot_dir (tree st)) webroot_dir
      (WebrootSettings.instrumentation_ini
         (load_webroot_settings (environ st) (tree st))) (environ st).
Proof. reflexivity. Qed.

(** C10: each of [apply], [revert] and [is_applied] opens with the
    four writes to [os.environ] (CAKEPHP_PATH, APP_DIR, WEBROOT_DIR,
    INSTRUMENTATION_INI), before any scan, check or mutation, and
    leaves them in the process environment; this holds for the
    read-only [is_applied] too, and when the run later raises. *)
Theorem entry_points_set_environment st :
  let info := detect webroot_dir (tree st) in
  let ini := WebrootSettings.instrumentation_ini
               (load_webroot_settings (environ st) (tree st)) in
  Spec.sets_environment_first info webroot_dir ini apply_m st
  ∧ Spec.sets_environment_first info webroot_dir ini revert_m st
  ∧ Spec.sets_environment_first info webroot_dir ini is_applied_m st.
Proof.
  intros info ini. unfold Spec.sets_environment_first.
  destruct (parse_major (version_at st)) as [e|major] eqn:Hp.
  - rewrite (events_of_apply_failed _ _ Hp), (events_of_revert_failed _ _ Hp),
      (events_of_is_applied_failed _ _ Hp), env_events_eq.
    rewrite run_apply_method, run_revert_method, run_is_applied_method, Hp.
    cbn [snd]. rewrite environ_after_load_settings.
    repeat split; try done; exists []; by rewrite app_nil_r.
  - rewrite (events_of_apply _ _ Hp), (events_of_revert _ _ Hp).
    destruct (events_of_is_applied _ _ Hp) as [rest ->].
    rewrite run_apply_method, run_revert_method, run_is_applied_method, Hp.
    destruct (groups_at st major) as [[[o p] c] a].
    cbn [snd]. unfold load_events. rewrite env_events_eq.
    repeat split; try done; rewrite <- !app_assoc; eexists; reflexivity.
Qed.

(** *** A second [apply] *)

Lemma quiet_checks ops bs : Forall Spec.quiet (zip_with OpCheck ops bs).
Proof.
  revert bs. induction ops as [|i ops IH]; intros [|b bs]; simpl; try done.
  constructor; [done|apply IH].
Qed.

Lemma printed_checks ops bs : printed (zip_with OpCheck ops bs) = [].
Proof.
  revert bs. induction ops as [|i ops IH]; intros [|b bs]; simpl; auto.
Qed.

Section AllApplied.
Hypothesis check_pure : ∀ i t, (op_check i t).1 = t.

Lemma run_ops_all_applied ops t :
  forallb (λ i, (op_check i t).2) ops = true →
  run_ops op_check ops t = (t, repeat true (length ops)).
Proof.
  induction ops as [|i ops IH]; [done|]. simpl.
  intros [Hi Hops]%andb_true_iff.
  rewrite check_pure, (IH Hops), Hi. reflexivity.
Qed.

Lemma select_false_all_true ops : select false ops (repeat true (length ops)) = [].
Proof. induction ops as [|i ops IH]; [done|]. simpl. apply IH. Qed.

Lemma noop_group label ops t :
  forallb (λ i, (op_check i t).2) ops = true →
  group_tree op_check op_apply false ops t = t
  ∧ apply_group_events op_check op_apply label ops t
    = check_events op_check ops t
      ++ [CallApply []; Printed (label +:+ " 0")].
Proof.
  intros H. unfold group_tree, apply_group_events, succeeded, outcomes,
    operands, answers, tree_after.
  rewrite (run_ops_all_applied _ _ H). cbn [fst snd].
  rewrite select_false_all_true. done.
Qed.
End AllApplied.

(** C2: when [check] never changes the tree and every operation of
    the four groups already checks as applied (the fully instrumented
    tree a first [apply] leaves), a call of [apply] succeeds, reports
    zero for every group, runs no operation and leaves the tree, and
    with it every check result, as it was. *)
Theorem apply_on_instrumented_tree st major o p c a :
  (∀ i t, (op_check i t).1 = t) →
  parse_major (version_at st) = inr major →
  groups_at st major = (o, p, c, a) →
  forallb (λ i, (op_check i (tree st)).2) (o ++ p ++ c ++ a) = true →
  (apply_m st).1 = inr ()
  ∧ tree (apply_m st).2 = tree st
  ∧ printed (events_of apply_m st)
    = ["Overrides Applied 0"; "Patches Applied 0";
       "Copies Applied 0"; "Annotations Removed 0"]
  ∧ Forall Spec.quiet (events_of apply_m st)
  ∧ ∀ i, op_check i (tree (apply_m st).2) = op_check i (tree st).
Proof.
  intros Hpure Hp Hg Hall.
  rewrite !forallb_app, !andb_true_iff in Hall.
  destruct Hall as (Ho & Hp' & Hc & Ha).
  assert (Htree : tree (apply_m st).2 = tree st).
  { rewrite run_apply_method, Hp, Hg.
    cbn [snd tree add_log with_tree apply_order groups_tree fst].
    rewrite (proj1 (noop_group Hpure "" _ _ Ho)).
    rewrite (proj1 (noop_group Hpure "" _ _ Hp')).
    rewrite (proj1 (noop_group Hpure "" _ _ Hc)).
    apply (proj1 (noop_group Hpure "" _ _ Ha)). }
  assert (Hev : events_of apply_m st
    = load_events_at st major
      ++ (check_events op_check o (tree st)
          ++ [CallApply []; Printed "Overrides Applied 0"])
      ++ (check_events op_check p (tree st)
          ++ [CallApply []; Printed "Patches Applied 0"])
      ++ (check_events op_check c (tree st)
          ++ [CallApply []; Printed "Copies Applied 0"])
      ++ (check_events op_check a (tree st)
          ++ [CallApply []; Printed "Annotations Removed 0"])).
  { rewrite (events_of_apply _ _ Hp), Hg.
    cbn [apply_order groups_events fst snd].
    destruct (noop_group Hpure "Overrides Applied" _ _ Ho) as [-> ->].
    destruct (noop_group Hpure "Patches Applied" _ _ Hp') as [-> ->].
    destruct (noop_group Hpure "Copies Applied" _ _ Hc) as [-> ->].
    destruct (noop_group Hpure "Annotations Removed" _ _ Ha) as [_ ->].
    by rewrite app_nil_r. }
  split; [|split; [|split; [|split]]].
  - by rewrite run_apply_method, Hp.
  - done.
  - rewrite Hev. unfold printed, check_events.
    rewrite !omap_app. cbn [omap list_omap app].
    fold printed. rewrite !printed_checks. reflexivity.
  - rewrite Hev. unfold check_events, load_events, env_events, env_writes, globs.
    repeat first [apply Forall_app; split | apply Forall_cons; split
                 | apply Forall_nil | apply quiet_checks | exact I ].
  - intros i. by rewrite Htree.
Qed.

(** *** The four groups *)

(** C5: the tuple [_load_instrumentations] returns holds the declared
    overrides alone, the declared patches followed by the patches
    [_load_cake_version_patches] discovers, the declared copies
    followed by the copies [_load_cake_version_copies] discovers, and
    the declared annotation removals alone. *)
Theorem groups_assembled st major :
  parse_major (version_at st) = inr major →
  let st1 := (Instrumentator._load_settings detect load_webroot_settings
                InstrumentationSettings_init webroot_dir st).2 in
  ∃ s ps cs,
    settings st1 = Some s
    ∧ (Instrumentator._load_cake_version_patches detect webroot_dir major st1).1
      = inr ps
    ∧ (Instrumentator._load_cake_version_copies detect webroot_dir major st1).1
      = inr cs
    ∧ (load_m st).1
      = inr (file_overrides s, patches s ++ ps, copies s ++ cs,
             remove_annotations s).
Proof.
  intros Hp st1. subst st1. rewrite run_load_settings. cbn [snd].
  exists (loaded_settings detect webroot_dir load_webroot_settings
            InstrumentationSettings_init st).
  eexists _, _. split; [reflexivity|].
  erewrite run_load_patches by reflexivity.
  erewrite run_load_copies by reflexivity.
  rewrite run_load_instrumentations, Hp. cbn [fst]. done.
Qed.
End EntryPoints.

(* ===================================================================== *)
(** ** The resolver *)
(* ===================================================================== *)

Section StrFacts.
(** The decimal form of a number keeps what was already written. *)
Lemma pretty_N_go_suffix x s : ∃ r, pretty_N_go x s = r +:+ s.
Proof.
  revert s. induction (N.lt_wf_0 x) as [x _ IH]; intros s.
  destruct (decide (x = 0)%N) as [->|Hx].
  - exists "". by rewrite pretty_N_go_0.
  - rewrite pretty_N_go_step by lia.
    destruct (IH (x `div` 10)%N) with (s := String (pretty_N_char (x `mod` 10)) s)
      as [r ->].
    { apply N.div_lt; lia. }
    exists (r +:+ String (pretty_N_char (x `mod` 10)) "").
    clear. induction r as [|a r IHr]; [done|].
    rewrite !app_cons. by rewrite IHr.
Qed.

Lemma pretty_N_char_not_dot x : pretty_N_char x ≠ "."%char.
Proof. unfold pretty_N_char. by repeat case_match. Qed.

(** [str(n)] is a segment of its own: not empty, not [.], not [..]. *)
Lemma str_plain (n : Z) : PathLib.plain (PyStr.str n).
Proof.
  assert (Hpos : ∀ p, PathLib.plain (pretty (N.pos p))).
  { intros p. unfold PathLib.plain, pretty, pretty_N. rewrite decide_False by done.
    rewrite pretty_N_go_step by lia.
    destruct (pretty_N_go_suffix (N.pos p `div` 10)
                (String (pretty_N_char (N.pos p `mod` 10)) "")) as [r ->].
    pose proof (pretty_N_char_not_dot (N.pos p `mod` 10)) as Hd.
    destruct r as [|a [|b r]]; rewrite ?app_cons, ?app_empty_l;
      repeat split; intros [=]; try congruence.
    by destruct r. }
  unfold PyStr.str, pretty, pretty_Z. destruct n as [|p|p].
  - by repeat split.
  - apply Hpos.
  - repeat split; intros [=].
Qed.
End StrFacts.

Section Resolver.
Import PathLib Instr Reading.
Variable detect : Path → node → AppInfo.t.
Variable webroot_dir : Path.

Abbreviation load_patches :=
  (Instrumentator._load_cake_version_patches detect webroot_dir).
Abbreviation load_copies :=
  (Instrumentator._load_cake_version_copies detect webroot_dir).
Abbreviation found_patches :=
  (discovered detect webroot_dir patch_for "*.patch").
Abbreviation found_copies :=
  (discovered detect webroot_dir copy_for "*.php").

Lemma version_dir_eq s major :
  version_dir s major = patch_dir s ++ ["cakephp"; PyStr.str major].
Proof.
  unfold version_dir. destruct (str_plain major) as (H1 & H2 & _).
  rewrite (joinpath_str_plain _ _ H1 H2).
  rewrite joinpath_str_plain by done. by rewrite <- app_assoc.
Qed.

(** The three subtrees and their live roots, spelled out. *)
Lemma discovered_eq mk pat s t major :
  discovered detect webroot_dir mk pat s t major
  = (mk (version_dir s major ++ ["APP_DIR"])
        (AppInfo.app_dir (detect webroot_dir t))
       <$> PathLib.rglob t (version_dir s major ++ ["APP_DIR"]) pat)
    ++ (mk (version_dir s major ++ ["CAKEPHP_PATH"])
           (AppInfo.cakephp_path (detect webroot_dir t))
          <$> PathLib.rglob t (version_dir s major ++ ["CAKEPHP_PATH"]) pat)
    ++ (mk (version_dir s major ++ ["WEBROOT"]) webroot_dir
          <$> PathLib.rglob t (version_dir s major ++ ["WEBROOT"]) pat).
Proof.
  unfold discovered, roots. cbn [mbind list_bind fst snd].
  rewrite !joinpath_str_plain by done. by rewrite app_nil_r.
Qed.

Lemma discovered_elem mk pat s t major i :
  i ∈ discovered detect webroot_dir mk pat s t major →
  ∃ sub live file,
    (sub, live) ∈ roots detect webroot_dir t
    ∧ file ∈ PathLib.rglob t (version_dir s major ++ [sub]) pat
    ∧ i = mk (version_dir s major ++ [sub]) live file.
Proof.
  rewrite discovered_eq, !elem_of_app, !list_elem_of_fmap.
  unfold roots.
  intros [(file & -> & Hf)|[(file & -> & Hf)|(file & -> & Hf)]];
    eexists _, _, file; (split; [|split; [exact Hf|reflexivity]]).
  - apply list_elem_of_here.
  - apply list_elem_of_further, list_elem_of_here.
  - do 2 apply list_elem_of_further. apply list_elem_of_here.
Qed.

Lemma discovered_ext mk1 mk2 pat s t major :
  (∀ base live file,
     file ∈ PathLib.rglob t base pat → mk1 base live file = mk2 base live file) →
  discovered detect webroot_dir mk1 pat s t major
  = discovered detect webroot_dir mk2 pat s t major.
Proof.
  intros H. rewrite !discovered_eq.
  f_equal; [|f_equal]; apply Forall_fmap_ext, Forall_forall; intros file Hf;
    by apply H.
Qed.

(** *** Targets *)

Lemma patch_name_cases x : x +:+ ".patch" = ".patch" ↔ x = "".
Proof.
  split; [|by intros ->]. intros H.
  apply (f_equal String.length) in H. rewrite length_app in H.
  destruct x; [done|]. simpl in H. lia.
Qed.

Lemma strip_suffix_app x suffix : Spec.strip_suffix suffix (x +:+ suffix) = x.
Proof.
  unfold Spec.strip_suffix. rewrite length_app.
  replace (String.length x + String.length suffix - String.length suffix)
    with (String.length x) by lia.
  apply substring_app_l.
Qed.

Lemma patch_for_amended t base live file :
  file ∈ PathLib.rglob t base "*.patch" →
  patch_for base live file = Spec.patch_op_amended base live file.
Proof.
  intros (rel & nm & -> & Hm)%rglob_elem.
  apply fnmatch_star in Hm as [x ->]; [|done].
  unfold patch_for, Spec.patch_op_amended, Spec.patch_op, Spec.patch_target.
  rewrite drop_app_length.
  rewrite (app_assoc base rel), !name_app, parent_app, stem_patch.
  destruct (decide (x = "")) as [->|Hx].
  - rewrite decide_True by done. by rewrite joinpath_str_plain.
  - rewrite decide_False by (by rewrite patch_name_cases).
    by rewrite strip_suffix_app.
Qed.

(** C3, as amended: for every file found under a root subtree, a file
    matching [*.patch] yields a patch whose [original] is the
    relative path with the trailing [.patch] removed, resolved
    against the live root of that subtree (the application directory
    for [APP_DIR], the framework directory for [CAKEPHP_PATH], the
    webroot for [WEBROOT]), except that a file named exactly [.patch]
    keeps its name; a file matching [*.php] yields a copy whose
    [dst] is the relative path as it is, resolved against the same
    live root. *)
Theorem resolver_targets s st major :
  settings st = Some s →
  (load_patches major st).1
  = inr (discovered detect webroot_dir Spec.patch_op_amended "*.patch"
           s (tree st) major)
  ∧ (load_copies major st).1
    = inr (discovered detect webroot_dir Spec.copy_op "*.php" s (tree st) major)
  ∧ ∀ sub pat file,
      file ∈ PathLib.rglob (tree st) (version_dir s major ++ [sub]) ("*" +:+ pat) →
      PyStr.occurs "*" pat || PyStr.occurs "?" pat = false →
      ∃ rel x, file = (version_dir s major ++ [sub]) ++ rel
               ∧ rel ≠ [] ∧ name file = x +:+ pat.
Proof.
  intros Hs. rewrite (run_load_patches _ _ _ _ _ Hs), (run_load_copies _ _ _ _ _ Hs).
  cbn [fst]. split; [|split].
  - f_equal. apply discovered_ext. intros base live file.
    apply patch_for_amended.
  - reflexivity.
  - intros sub pat file (rel & nm & -> & Hm)%rglob_elem Hlit.
    apply fnmatch_star in Hm as [x ->].
    + exists (rel ++ [x +:+ pat]), x. split; [done|]. split.
      * by destruct rel.
      * by rewrite (app_assoc _ rel), name_app.
    + clear -Hlit. apply orb_false_iff in Hlit as [H1 H2].
      induction pat as [|c pat IH]; [done|]. simpl in *.
      apply orb_false_iff in H1 as [-> H1], H2 as [-> H2]. simpl. by apply IH.
Qed.

(** *** No rejection *)

Lemma source_patch_for base live (files : list Path) :
  Spec.source <$> (patch_for base live <$> files) = files.
Proof. rewrite <- list_fmap_compose. apply list_fmap_id. Qed.

Lemma source_copy_for base live (files : list Path) :
  Spec.source <$> (copy_for base live <$> files) = files.
Proof. rewrite <- list_fmap_compose. apply list_fmap_id. Qed.

(** C7, as amended: the resolver has no containment check and rejects
    nothing: it returns without raising, and the operations it
    returns read exactly the files the three scans yield, one
    operation per file and in scan order, wherever their targets
    resolve. *)
Theorem resolver_never_rejects s st major :
  settings st = Some s →
  let scan pat :=
    PathLib.rglob (tree st) (version_dir s major ++ ["APP_DIR"]) pat
    ++ PathLib.rglob (tree st) (version_dir s major ++ ["CAKEPHP_PATH"]) pat
    ++ PathLib.rglob (tree st) (version_dir s major ++ ["WEBROOT"]) pat in
  ∃ ps cs,
    (load_patches major st).1 = inr ps
    ∧ (load_copies major st).1 = inr cs
    ∧ Spec.source <$> ps = scan "*.patch"
    ∧ Spec.source <$> cs = scan "*.php".
Proof.
  intros Hs scan. subst scan.
  rewrite (run_load_patches _ _ _ _ _ Hs), (run_load_copies _ _ _ _ _ Hs).
  eexists _, _. split; [reflexivity|]. split; [reflexivity|].
  rewrite !discovered_eq, !fmap_app, !source_patch_for, !source_copy_for.
  done.
Qed.

(** *** Missing directories *)

Lemma is_dir_snoc t p nm :
  plain nm → is_dir t p = false → is_dir t (p ++ [nm]) = false.
Proof.
  intros Hnm. unfold is_dir. rewrite (lookup_snoc _ _ _ Hnm).
  by destruct (lookup t p) as [[c|entries]|].
Qed.

Lemma source_below mk pat s t major i :
  (∀ base live file, Spec.source (mk base live file) = file) →
  i ∈ discovered detect webroot_dir mk pat s t major →
  ∃ sub rel,
    Spec.source i = (version_dir s major ++ [sub]) ++ rel
    ∧ Spec.source i ∈ PathLib.rglob t (version_dir s major ++ [sub]) pat.
Proof.
  intros Hmk (sub & live & file & _ & Hf & ->)%discovered_elem.
  rewrite Hmk. destruct (rglob_elem _ _ _ _ Hf) as (rel & nm & Hfile & _).
  exists sub, (rel ++ [nm]). by rewrite <- Hfile.
Qed.

Lemma found_source_below s t major i :
  i ∈ found_patches s t major ++ found_copies s t major →
  ∃ sub rel pat,
    Spec.source i = (version_dir s major ++ [sub]) ++ rel
    ∧ Spec.source i ∈ PathLib.rglob t (version_dir s major ++ [sub]) pat.
Proof.
  intros [Hi|Hi]%elem_of_app.
  - apply source_below in Hi as (sub & rel & H1 & H2); [|done].
    exists sub, rel, "*.patch". by split.
  - apply source_below in Hi as (sub & rel & H1 & H2); [|done].
    exists sub, rel, "*.php". by split.
Qed.

Lemma discovered_contributes mk pat s t major sub live file :
  (sub, live) ∈ roots detect webroot_dir t →
  file ∈ PathLib.rglob t (version_dir s major ++ [sub]) pat →
  mk (version_dir s major ++ [sub]) live file
  ∈ discovered detect webroot_dir mk pat s t major.
Proof.
  intros Hr Hf. rewrite discovered_eq, !elem_of_app, !list_elem_of_fmap.
  unfold roots in Hr.
  repeat (apply elem_of_cons in Hr as [[= -> ->]|Hr];
          [by eauto 6|]).
  by apply elem_of_nil in Hr.
Qed.

(** C8, as amended: the resolver never raises on a missing directory.
    When the version-keyed directory is missing, both groups come
    back empty.  When one of its subtrees is missing, no operation
    comes from that subtree, and the other subtrees still give
    theirs: whatever is missing elsewhere, every [*.patch] file found
    below a root subtree has its patch in the patch group and every
    [*.php] file its copy in the copy group, bound to the live root
    of that subtree. *)
Theorem missing_subtrees s st major :
  settings st = Some s →
  ∃ ps cs,
    (load_patches major st).1 = inr ps
    ∧ (load_copies major st).1 = inr cs
    ∧ (is_dir (tree st) (version_dir s major) = false → ps = [] ∧ cs = [])
    ∧ (∀ sub,
         is_dir (tree st) (version_dir s major ++ [sub]) = false →
         ∀ i, i ∈ ps ++ cs →
              ¬ (version_dir s major ++ [sub]) `prefix_of` Spec.source i)
    ∧ ∀ sub live file,
        (sub, live) ∈ roots detect webroot_dir (tree st) →
        (file ∈ PathLib.rglob (tree st) (version_dir s major ++ [sub]) "*.patch" →
         patch_for (version_dir s major ++ [sub]) live file ∈ ps)
        ∧ (file ∈ PathLib.rglob (tree st) (version_dir s major ++ [sub]) "*.php" →
           copy_for (version_dir s major ++ [sub]) live file ∈ cs).
Proof.
  intros Hs.
  rewrite (run_load_patches _ _ _ _ _ Hs), (run_load_copies _ _ _ _ _ Hs).
  eexists _, _. split; [reflexivity|]. split; [reflexivity|].
  split; [|split].
  - intros Hv. rewrite !discovered_eq.
    rewrite !rglob_not_dir by (by apply is_dir_snoc). done.
  - intros sub Hsub i (sub' & rel & pat & Hsrc & Hin)%found_source_below [k Hk].
    rewrite Hsrc, <- !app_assoc in Hk.
    apply app_inv_head in Hk. injection Hk as -> _.
    rewrite (rglob_not_dir _ _ _ Hsub) in Hin. by apply elem_of_nil in Hin.
  - intros sub live file Hr. split; intros Hf; by apply discovered_contributes.
Qed.

(** *** Scoping by the major version *)

Lemma rglob_frame t t' dir pat :
  lookup t' dir = lookup t dir → PathLib.rglob t' dir pat = PathLib.rglob t dir pat.
Proof. intros H. unfold PathLib.rglob. by rewrite H. Qed.

Lemma discovered_frame mk pat s t t' major :
  detect webroot_dir t' = detect webroot_dir t →
  lookup t' (version_dir s major) = lookup t (version_dir s major) →
  discovered detect webroot_dir mk pat s t' major
  = discovered detect webroot_dir mk pat s t major.
Proof.
  intros Hd Hl. rewrite !discovered_eq, Hd.
  rewrite !(rglob_frame t t') by (by rewrite !lookup_snoc, Hl).
  done.
Qed.

Lemma major_of_spec version st major :
  (Instrumentator.major_of version st).1 = inr major
  ↔ PyStr.int (PyStr.before_first "." version) = Some major.
Proof.
  rewrite run_major_of. cbn [fst]. unfold parse_major.
  rewrite before_first_split.
  destruct (PyStr.int _); split; intros [=]; by subst.
Qed.

End Resolver.

Section Scoping.
Import PathLib Instr Reading.
Variable detect : Path → node → AppInfo.t.
Variable load_webroot_settings : gmap string string → node → WebrootSettings.t.
Variable InstrumentationSettings_init :
  string → gmap string string → node → InstrumentationSettings.
Variable webroot_dir : Path.

Abbreviation load_m :=
  (Instrumentator._load_instrumentations detect load_webroot_settings
     InstrumentationSettings_init webroot_dir).
Abbreviation settings_at st :=
  (loaded_settings detect webroot_dir load_webroot_settings
     InstrumentationSettings_init st).
Abbreviation version_at st :=
  (AppInfo.cakephp_version (detect webroot_dir (tree st))).
Abbreviation ini_at st :=
  (WebrootSettings.instrumentation_ini
     (load_webroot_settings (environ st) (tree st))).

Lemma parse_major_int version major :
  PyStr.int (PyStr.before_first "." version) = Some major →
  parse_major version = inr major.
Proof.
  intros H. unfold parse_major. by rewrite before_first_split, H.
Qed.

(** C6: discovery is scoped by the detected major version.  Let
    [major] be the integer [int] reads from the text before the first
    dot of the version the detection reports, and [v] the directory
    [patch_dir/cakephp/<major>].  Then [_load_instrumentations] scans
    the three subtrees of [v] for [*.patch], then for [*.php], and
    nothing else; the patches and copies it adds to the declared ones
    read exactly the files these scans find, so each reads a file
    below [v] and none a file below another version key; and what it
    returns depends on the tree only through the detection and the
    directory [v]. *)
Theorem discovery_scoped st major :
  let s := settings_at st in
  let v := patch_dir s ++ ["cakephp"; PyStr.str major] in
  let scans pat :=
    (λ sub, Glob (v ++ [sub]) pat) <$> ["APP_DIR"; "CAKEPHP_PATH"; "WEBROOT"] in
  let found pat :=
    PathLib.rglob (tree st) (v ++ ["APP_DIR"]) pat
    ++ PathLib.rglob (tree st) (v ++ ["CAKEPHP_PATH"]) pat
    ++ PathLib.rglob (tree st) (v ++ ["WEBROOT"]) pat in
  PyStr.int (PyStr.before_first "." (version_at st)) = Some major →
  events_of load_m st
  = Spec.environment_events (detect webroot_dir (tree st)) webroot_dir
      (ini_at st)
    ++ scans "*.patch" ++ scans "*.php"
  ∧ ∃ ps cs,
      (load_m st).1
      = inr (file_overrides s, patches s ++ ps, copies s ++ cs,
             remove_annotations s)
      ∧ Spec.source <$> ps = found "*.patch"
      ∧ Spec.source <$> cs = found "*.php"
      ∧ (∀ i, i ∈ ps ++ cs → v `prefix_of` Spec.source i)
      ∧ (∀ key i, key ≠ PyStr.str major → i ∈ ps ++ cs →
                  ¬ (patch_dir s ++ ["cakephp"; key]) `prefix_of` Spec.source i)
      ∧ ∀ st', settings_at st' = s →
               detect webroot_dir (tree st') = detect webroot_dir (tree st) →
               lookup (tree st') v = lookup (tree st) v →
               (load_m st').1 = (load_m st).1.
Proof.
  intros s v scans found Hint. subst scans found.
  pose proof (parse_major_int _ _ Hint) as Hp.
  assert (Hv : version_dir s major = v) by apply version_dir_eq.
  split.
  - rewrite (events_of_load _ _ _ _ _ _ Hp). unfold load_events, globs.
    rewrite env_events_eq. fold s. rewrite Hv.
    cbn [fmap list_fmap]. by rewrite !joinpath_str_plain.
  - rewrite run_load_instrumentations, Hp. cbn [fst]. unfold loaded_groups.
    fold s. eexists _, _. split; [reflexivity|].
    split; [|split; [|split; [|split]]].
    + by rewrite discovered_eq, !fmap_app, !source_patch_for, Hv.
    + by rewrite discovered_eq, !fmap_app, !source_copy_for, Hv.
    + intros i (sub & rel & pat & Hsrc & _)%found_source_below.
      exists (sub :: rel). rewrite Hsrc, Hv. by rewrite <- app_assoc.
    + intros key i Hkey (sub & rel & pat & Hsrc & _)%found_source_below [k Hk].
      rewrite Hsrc, Hv in Hk. subst v. rewrite <- !app_assoc in Hk.
      apply app_inv_head in Hk. injection Hk as Hk _. congruence.
    + intros st' Hs' Hd Hl. rewrite run_load_instrumentations, Hd, Hp.
      cbn [fst]. unfold loaded_groups. rewrite Hs'. fold s.
      rewrite <- Hv in Hl.
      by rewrite !(discovered_frame _ _ _ _ _ _ _ _ Hd Hl).
Qed.
End Scoping.

(* ===================================================================== *)
(** ** The code evaluated on the small installation *)
(* ===================================================================== *)

Section Evaluation.
Import PathLib Instr Reading.



(** A tree on which the one declared copy is already in place and
    nothing is discovered: [apply] reports zero everywhere. *)
Lemma apply_on_instrumented_tree_witness :
  let st := Demo.initial Demo.tree_v3 in
  let m := Demo.apply [] [Demo.stub] "4.2.1" in
  forallb (λ i, (Demo.exists_check i (tree st)).2) [Demo.stub] = true
  ∧ (m st).1 = inr ()
  ∧ tree (m st).2 = tree st
  ∧ printed (events_of m st)
    = ["Overrides Applied 0"; "Patches Applied 0";
       "Copies Applied 0"; "Annotations Removed 0"]
  ∧ Forall Spec.quiet (events_of m st)
  ∧ ∀ i, Demo.exists_check i (tree (m st).2) = Demo.exists_check i (tree st).
Proof.
  intros st m. split; [reflexivity|].
  apply (apply_on_instrumented_tree Demo.exists_check Demo.failing
           (Demo.detect "4.2.1") Demo.load_webroot_settings
           (Demo.settings_init [] [Demo.stub]) Demo.webroot_dir
           st 4 [] [] [Demo.stub] []).
  - intros i t. reflexivity.
  - vm_compute. reflexivity.
  - vm_compute. reflexivity.
  - vm_compute. reflexivity.
Defined.

(** The four groups on the tree with resources for version 4. *)
Lemma groups_assembled_witness :
  let st := Demo.initial Demo.tree_v4 in
  let st1 := (Instrumentator._load_settings (Demo.detect "4.2.1")
                Demo.load_webroot_settings
                (Demo.settings_init [Demo.banner] [Demo.stub])
                Demo.webroot_dir st).2 in
  parse_major "4.2.1" = inr 4%Z
  ∧ ∃ s ps cs,
      settings st1 = Some s
      ∧ (Demo.load_patches "4.2.1" 4 st1).1 = inr ps
      ∧ (Demo.load_copies "4.2.1" 4 st1).1 = inr cs
      ∧ (Instrumentator._load_instrumentations (Demo.detect "4.2.1")
           Demo.load_webroot_settings
           (Demo.settings_init [Demo.banner] [Demo.stub])
           Demo.webroot_dir st).1
        = inr (file_overrides s, patches s ++ ps, copies s ++ cs,
               remove_annotations s).
Proof.
  intros st st1. split; [reflexivity|].
  apply (groups_assembled (Demo.detect "4.2.1") Demo.load_webroot_settings
           (Demo.settings_init [Demo.banner] [Demo.stub]) Demo.webroot_dir
           st 4).
  vm_compute. reflexivity.
Defined.

(** The resolver on the tree with resources for version 4. *)
Lemma resolver_targets_witness :
  let st := Demo.loaded Demo.tree_v4 in
  settings st = Some Demo.declared
  ∧ (Demo.load_patches "4.2.1" 4 st).1
    = inr [PatchInstrumentation
             ["res"; "cakephp"; "4"; "APP_DIR"; "a.php.patch"]
             ["var"; "www"; "app"; "a.php"]]
  ∧ (Demo.load_copies "4.2.1" 4 st).1
    = inr [CopyInstrumentation
             ["res"; "cakephp"; "4"; "APP_DIR"; "sub"; "x.php"]
             ["var"; "www"; "app"; "sub"; "x.php"]].
Proof.
  intros st. split; [reflexivity|].
  destruct (resolver_targets (Demo.detect "4.2.1") Demo.webroot_dir
              Demo.declared st 4 eq_refl) as (Hp & Hc & _).
  split; [exact Hp|exact Hc].
Defined.

(** A patch file named exactly [.patch] is bound to a target of the
    same name, where the documentation strips the suffix. *)
Lemma patch_named_dot_patch_keeps_its_name :
  let st := Demo.loaded Demo.tree_dot_patch in
  let base := ["res"; "cakephp"; "4"; "APP_DIR"] in
  let file := base ++ [".patch"] in
  file ∈ PathLib.rglob (tree st) base "*.patch"
  ∧ Spec.patch_op base Demo.app_dir file
    = PatchInstrumentation file ["var"; "www"; "app"]
  ∧ (Demo.load_patches "4.2.1" 4 st).1
    = inr [PatchInstrumentation file ["var"; "www"; "app"; ".patch"]]
  ∧ (Demo.load_patches "4.2.1" 4 st).1
    ≠ inr [Spec.patch_op base Demo.app_dir file].
Proof.
  intros st base file. split; [|split; [|split]].
  - vm_compute. apply list_elem_of_here.
  - vm_compute. reflexivity.
  - vm_compute. reflexivity.
  - vm_compute. discriminate.
Qed.

(** Version [4.2.1] detected on a tree that holds resources for
    version 3 only: loading scans the subtrees of [/res/cakephp/4]
    and adds nothing to the declared groups. *)
Lemma discovery_scoped_witness :
  let st := Demo.initial Demo.tree_v3 in
  let detect := Demo.detect "4.2.1" in
  let load :=
    Instrumentator._load_instrumentations detect Demo.load_webroot_settings
      (Demo.settings_init [Demo.banner] [Demo.stub]) Demo.webroot_dir in
  let v := ["res"; "cakephp"; "4"] in
  let scans pat :=
    [Glob (v ++ ["APP_DIR"]) pat; Glob (v ++ ["CAKEPHP_PATH"]) pat;
     Glob (v ++ ["WEBROOT"]) pat] in
  PyStr.int (PyStr.before_first "." "4.2.1") = Some 4%Z
  ∧ events_of load st
    = Spec.environment_events (detect Demo.webroot_dir (tree st))
        Demo.webroot_dir ["etc"; "instrumentation.ini"]
      ++ scans "*.patch" ++ scans "*.php"
  ∧ ∃ ps cs,
      (load st).1 = inr ([Demo.banner], [] ++ ps, [Demo.stub] ++ cs, [])
      ∧ Spec.source <$> ps = []
      ∧ Spec.source <$> cs = []
      ∧ (∀ i, i ∈ ps ++ cs → v `prefix_of` Spec.source i)
      ∧ (∀ key i, key ≠ "4" → i ∈ ps ++ cs →
                  ¬ (["res"] ++ ["cakephp"; key]) `prefix_of` Spec.source i)
      ∧ ∀ st',
          loaded_settings detect Demo.webroot_dir Demo.load_webroot_settings
            (Demo.settings_init [Demo.banner] [Demo.stub]) st'
          = loaded_settings detect Demo.webroot_dir Demo.load_webroot_settings
              (Demo.settings_init [Demo.banner] [Demo.stub]) st →
          detect Demo.webroot_dir (tree st') = detect Demo.webroot_dir (tree st) →
          lookup (tree st') v = lookup (tree st) v →
          (load st').1 = (load st).1.
Proof.
  intros st detect load v scans. split; [vm_compute; reflexivity|].
  apply (discovery_scoped detect Demo.load_webroot_settings
           (Demo.settings_init [Demo.banner] [Demo.stub]) Demo.webroot_dir
           st 4).
  vm_compute. reflexivity.
Defined.

(** Scenario D: with resources for version 3 only and version 4
    detected, no patch and no copy is discovered, and loading returns
    the declared groups alone. *)
Example nothing_discovered_for_other_version :
  (Demo.load_patches "4.2.1" 4 (Demo.loaded Demo.tree_v3)).1 = inr []
  ∧ (Demo.load_copies "4.2.1" 4 (Demo.loaded Demo.tree_v3)).1 = inr []
  ∧ (Instrumentator._load_instrumentations (Demo.detect "4.2.1")
       Demo.load_webroot_settings
       (Demo.settings_init [Demo.banner] [Demo.stub]) Demo.webroot_dir
       (Demo.initial Demo.tree_v3)).1
    = inr ([Demo.banner], [], [Demo.stub], []).
Proof. repeat split; vm_compute; reflexivity. Qed.

(** ... and with version [3.10] detected on the same tree, the
    resources of version 3 are the ones discovered. *)
Example discovered_for_detected_version :
  (Instrumentator._load_instrumentations (Demo.detect "3.10")
     Demo.load_webroot_settings (Demo.settings_init [] []) Demo.webroot_dir
     (Demo.initial Demo.tree_v3)).1
  = inr ([],
         [PatchInstrumentation ["res"; "cakephp"; "3"; "APP_DIR"; "a.php.patch"]
                               ["var"; "www"; "app"; "a.php"]],
         [CopyInstrumentation ["res"; "cakephp"; "3"; "APP_DIR"; "x.php"]
                              ["var"; "www"; "app"; "x.php"]],
         []).
Proof. vm_compute. reflexivity. Qed.

(** The resolver on the tree with a patch file named [...patch]: one
    operation for the one file. *)
Lemma resolver_never_rejects_witness :
  let st := Demo.loaded Demo.tree_dots in
  settings st = Some Demo.declared
  ∧ ∃ ps cs,
      (Demo.load_patches "4.2.1" 4 st).1 = inr ps
      ∧ (Demo.load_copies "4.2.1" 4 st).1 = inr cs
      ∧ Spec.source <$> ps = [["res"; "cakephp"; "4"; "APP_DIR"; "...patch"]]
      ∧ Spec.source <$> cs = [].
Proof.
  intros st. split; [reflexivity|].
  apply (resolver_never_rejects (Demo.detect "4.2.1") Demo.webroot_dir
           Demo.declared st 4).
  reflexivity.
Defined.

(** A patch file named [...patch] has the stem [..]: the resolver
    returns, and does not reject, a patch whose target is the parent
    of the application directory. *)
Lemma target_outside_root_is_not_rejected :
  let st := Demo.loaded Demo.tree_dots in
  let escaping :=
    PatchInstrumentation ["res"; "cakephp"; "4"; "APP_DIR"; "...patch"]
                         ["var"; "www"; "app"; ".."] in
  (Demo.load_patches "4.2.1" 4 st).1 = inr [escaping]
  ∧ Spec.normpath (Spec.target escaping) = ["var"; "www"]
  ∧ Spec.inside Demo.app_dir (Spec.target escaping) = false.
Proof. intros st escaping. repeat split; vm_compute; reflexivity. Qed.

(** The resolver on the tree where only [WEBROOT] exists. *)
Lemma missing_subtrees_witness :
  let st := Demo.loaded Demo.tree_webroot_only in
  let detect := Demo.detect "4.2.1" in
  let v := version_dir Demo.declared 4 in
  settings st = Some Demo.declared
  ∧ ∃ ps cs,
      (Demo.load_patches "4.2.1" 4 st).1 = inr ps
      ∧ (Demo.load_copies "4.2.1" 4 st).1 = inr cs
      ∧ (is_dir (tree st) v = false → ps = [] ∧ cs = [])
      ∧ (∀ sub,
           is_dir (tree st) (v ++ [sub]) = false →
           ∀ i, i ∈ ps ++ cs → ¬ (v ++ [sub]) `prefix_of` Spec.source i)
      ∧ ∀ sub live file,
          (sub, live) ∈ roots detect Demo.webroot_dir (tree st) →
          (file ∈ PathLib.rglob (tree st) (v ++ [sub]) "*.patch" →
           patch_for (v ++ [sub]) live file ∈ ps)
          ∧ (file ∈ PathLib.rglob (tree st) (v ++ [sub]) "*.php" →
             copy_for (v ++ [sub]) live file ∈ cs).
Proof.
  intros st detect v. split; [reflexivity|].
  apply (missing_subtrees detect Demo.webroot_dir Demo.declared st 4).
  reflexivity.
Defined.

(** Two of the three subtrees are missing and the copy group is not
    empty. *)
Lemma missing_subtree_does_not_empty_the_groups :
  let st := Demo.loaded Demo.tree_webroot_only in
  let v := ["res"; "cakephp"; "4"] in
  is_dir (tree st) v = true
  ∧ is_dir (tree st) (v ++ ["APP_DIR"]) = false
  ∧ is_dir (tree st) (v ++ ["CAKEPHP_PATH"]) = false
  ∧ (Demo.load_copies "4.2.1" 4 st).1
    = inr [CopyInstrumentation ["res"; "cakephp"; "4"; "WEBROOT"; "x.php"]
                               ["var"; "www"; "app"; "webroot"; "x.php"]]
  ∧ (Demo.load_copies "4.2.1" 4 st).1 ≠ inr [].
Proof.
  intros st v. repeat split; try (vm_compute; reflexivity).
  vm_compute. discriminate.
Qed.

(** C9 on a failing input: [Demo.stub] is applied and its revert
    fails; the batch helper returns nothing as reverted, and
    [revert] still prints a count of one for the copies. *)
Theorem revert_counts_a_failed_revert :
  let st := Demo.initial Demo.tree_v3 in
  let m := Demo.revert [] [Demo.stub] "4.2.1" in
  (m st).1 = inr ()
  ∧ OpRevert Demo.stub false ∈ events_of m st
  ∧ (Instr.revert Demo.failing [Demo.stub] st).1 = inr []
  ∧ printed (events_of m st)
    = ["Annotations Reverted 0"; "Overrides Reverted 0";
       "Patches Reverted 0"; "Copies Reverted 1"].
Proof.
  intros st m. split; [|split; [|split]]; try (vm_compute; reflexivity).
  vm_compute. do 22 apply list_elem_of_further. apply list_elem_of_here.
Qed.
End Evaluation.

(* ===================================================================== *)
(** ** Loading: errors, frame and order *)
(* ===================================================================== *)

Section Loading.
Import PathLib Instr Reading.
Variable op_check : Instrumentation → node → node * bool.
Variable op_apply : Instrumentation → node → node * bool.
Variable op_revert : Instrumentation → node → node * bool.
Variable detect : Path → node → AppInfo.t.
Variable load_webroot_settings : gmap string string → node → WebrootSettings.t.
Variable InstrumentationSettings_init :
  string → gmap string string → node → InstrumentationSettings.
Variable webroot_dir : Path.

Abbreviation apply_m :=
  (Instrumentator.apply op_check op_apply detect load_webroot_settings
     InstrumentationSettings_init webroot_dir).
Abbreviation revert_m :=
  (Instrumentator.revert op_check op_revert detect load_webroot_settings
     InstrumentationSettings_init webroot_dir).
Abbreviation is_applied_m :=
  (Instrumentator.is_applied op_check detect load_webroot_settings
     InstrumentationSettings_init webroot_dir).
Abbreviation load_m :=
  (Instrumentator._load_instrumentations detect load_webroot_settings
     InstrumentationSettings_init webroot_dir).
Abbreviation load_settings_m :=
  (Instrumentator._load_settings detect load_webroot_settings
     InstrumentationSettings_init webroot_dir).
Abbreviation groups_at st major :=
  (loaded_groups detect webroot_dir load_webroot_settings
     InstrumentationSettings_init st major).
Abbreviation load_events_at st major :=
  (load_events detect webroot_dir load_webroot_settings
     InstrumentationSettings_init st major).
Abbreviation version_at st :=
  (AppInfo.cakephp_version (detect webroot_dir (tree st))).
Abbreviation ini_at st :=
  (WebrootSettings.instrumentation_ini
     (load_webroot_settings (environ st) (tree st))).



(** X2: loading the instrumentations never touches the tree and runs
    no check and no operation: its events are writes to the
    environment and scans only, whether it returns or raises. *)
Theorem load_reads_only st :
  tree (load_m st).2 = tree st
  ∧ Forall Extra.loading (events_of load_m st).
Proof.
  destruct (parse_major (version_at st)) as [e|major] eqn:Hp.
  - rewrite (events_of_failed_load detect load_webroot_settings
               InstrumentationSettings_init webroot_dir load_m st (inl e))
      by (by rewrite run_load_instrumentations, Hp).
    rewrite run_load_instrumentations, Hp. split; [done|].
    unfold env_events, env_writes. cbn [fmap list_fmap].
    repeat constructor.
  - rewrite (events_of_load _ _ _ _ _ _ Hp).
    rewrite run_load_instrumentations, Hp. split; [done|].
    unfold load_events, env_events, env_writes, globs.
    cbn [fmap list_fmap app]. repeat constructor.
Qed.


Lemma after_load_settings_stale st st' :
  environ st = environ st' → tree st = tree st' → log st = log st' →
  after_load_settings detect webroot_dir load_webroot_settings
    InstrumentationSettings_init st
  = after_load_settings detect webroot_dir load_webroot_settings
      InstrumentationSettings_init st'.
Proof.
  destruct st, st'. cbn [environ tree log]. intros -> -> ->. reflexivity.
Qed.

Lemma after_load_stale st st' major :
  environ st = environ st' → tree st = tree st' → log st = log st' →
  after_load detect webroot_dir load_webroot_settings
    InstrumentationSettings_init st major
  = after_load detect webroot_dir load_webroot_settings
      InstrumentationSettings_init st' major.
Proof.
  destruct st, st'. cbn [environ tree log]. intros -> -> ->. reflexivity.
Qed.

(** X4: the entry points reload the settings each time: what the
    [settings] attribute held before the call (nothing on a fresh
    object, or the settings of an earlier call) has no effect on the
    result, the tree, the environment or the log. *)
Theorem stale_settings_are_ignored st st' :
  environ st = environ st' → tree st = tree st' → log st = log st' →
  Instrumentator.apply op_check op_apply detect load_webroot_settings
    InstrumentationSettings_init webroot_dir st
  = Instrumentator.apply op_check op_apply detect load_webroot_settings
      InstrumentationSettings_init webroot_dir st'
  ∧ Instrumentator.revert op_check op_revert detect load_webroot_settings
      InstrumentationSettings_init webroot_dir st
    = Instrumentator.revert op_check op_revert detect load_webroot_settings
        InstrumentationSettings_init webroot_dir st'
  ∧ Instrumentator.is_applied op_check detect load_webroot_settings
      InstrumentationSettings_init webroot_dir st
    = Instrumentator.is_applied op_check detect load_webroot_settings
        InstrumentationSettings_init webroot_dir st'.
Proof.
  intros He Ht Hl.
  rewrite !run_apply_method, !run_revert_method, !run_is_applied_method.
  rewrite <- Ht.
  destruct (parse_major (version_at st)) as [e|major].
  - by rewrite (after_load_settings_stale _ _ He Ht Hl).
  - rewrite (after_load_stale _ _ major He Ht Hl).
    assert (Hg : groups_at st major = groups_at st' major).
    { destruct st, st'. cbn [environ tree log] in *. by subst. }
    by rewrite Hg.
Qed.

(** X5: before [_load_settings] has run, the [settings] attribute is
    [None] and each private loader raises [AttributeError] at once:
    nothing is scanned and the state is left as it was. *)
Theorem loaders_need_settings st major :
  settings st = None →
  let fails {A} (m : M A) := ∃ attr, m st = (inl (AttributeError attr), st) in
  fails Instrumentator._load_settings_patches
  ∧ fails Instrumentator._load_settings_overrides
  ∧ fails Instrumentator._load_annotations_removal
  ∧ fails (Instrumentator._load_cake_version_patches detect webroot_dir major)
  ∧ fails (Instrumentator._load_cake_version_copies detect webroot_dir major).
Proof.
  intros Hs fails. subst fails. cbv beta.
  unfold Instrumentator._load_settings_patches,
    Instrumentator._load_settings_overrides,
    Instrumentator._load_annotations_removal,
    Instrumentator._load_cake_version_patches,
    Instrumentator._load_cake_version_copies.
  unfold mbind, M_bind, bind, self_settings. rewrite Hs.
  repeat split; by eexists.
Qed.
End Loading.

(* ===================================================================== *)
(** ** The entry points: roles, counts and quiet runs *)
(* ===================================================================== *)

Section Orchestration.
Import PathLib Instr Reading.
Variable op_check : Instrumentation → node → node * bool.
Variable op_apply : Instrumentation → node → node * bool.
Variable op_revert : Instrumentation → node → node * bool.
Variable detect : Path → node → AppInfo.t.
Variable load_webroot_settings : gmap string string → node → WebrootSettings.t.
Variable InstrumentationSettings_init :
  string → gmap string string → node → InstrumentationSettings.
Variable webroot_dir : Path.

Abbreviation apply_m :=
  (Instrumentator.apply op_check op_apply detect load_webroot_settings
     InstrumentationSettings_init webroot_dir).
Abbreviation revert_m :=
  (Instrumentator.revert op_check op_revert detect load_webroot_settings
     InstrumentationSettings_init webroot_dir).
Abbreviation is_applied_m :=
  (Instrumentator.is_applied op_check detect load_webroot_settings
     InstrumentationSettings_init webroot_dir).
Abbreviation groups_at st major :=
  (loaded_groups detect webroot_dir load_webroot_settings
     InstrumentationSettings_init st major).
Abbreviation load_events_at st major :=
  (load_events detect webroot_dir load_webroot_settings
     InstrumentationSettings_init st major).
Abbreviation env_events_at st :=
  (env_events detect webroot_dir load_webroot_settings st).
Abbreviation version_at st :=
  (AppInfo.cakephp_version (detect webroot_dir (tree st))).

Lemma events_of_is_applied_full st major o p c a :
  parse_major (version_at st) = inr major →
  groups_at st major = (o, p, c, a) →
  events_of is_applied_m st
  = load_events_at st major
    ++ status_group_events op_check [Printed "Applied / Unapplied"]
         "Overrides" o (tree st)
    ++ groups_events (status_group_events op_check []) (tree_after op_check)
         [("Patches", p); ("Copies", c); ("Annotations", a)]
         (tree_after op_check o (tree st)).
Proof.
  intros Hp Hg. apply events_of_log.
  rewrite run_is_applied_method, Hp, Hg. cbn [snd log add_log with_tree].
  by rewrite log_after_load, <- app_assoc.
Qed.

Lemma Forall_ops (P : event → Prop) (ev : Instrumentation → bool → event) ops bs :
  (∀ i b, P (ev i b)) → Forall P (zip_with ev ops bs).
Proof.
  intros H. revert bs. induction ops as [|i ops IH]; intros [|b bs]; simpl;
    try constructor; auto.
Qed.

Lemma Forall_groups (P : event → Prop) events next gs t :
  (∀ label ops t', Forall P (events label ops t')) →
  Forall P (groups_events events next gs t).
Proof.
  intros H. revert t. induction gs as [|g gs IH]; intros t; [constructor|].
  cbn [groups_events]. apply Forall_app. split; [apply H|apply IH].
Qed.

Lemma Forall_load (P : event → Prop) st major :
  (∀ k v, P (EnvSet k v)) → (∀ d pat, P (Glob d pat)) →
  Forall P (load_events_at st major).
Proof.
  intros H1 H2. unfold load_events, env_events, env_writes, globs.
  cbn [fmap list_fmap app]. repeat constructor; auto.
Qed.

Lemma Forall_env (P : event → Prop) st :
  (∀ k v, P (EnvSet k v)) → Forall P (env_events_at st).
Proof.
  intros H1. unfold env_events, env_writes.
  cbn [fmap list_fmap app]. repeat constructor; auto.
Qed.

(** X6: each entry point stays in its role: a run of [apply] contains
    no batch revert and no single revert, a run of [revert] no batch
    apply and no single apply, and a run of [is_applied] neither. *)
Theorem entry_points_stay_in_role st :
  Forall Extra.no_revert (events_of apply_m st)
  ∧ Forall Extra.no_apply (events_of revert_m st)
  ∧ Forall (λ e, Extra.no_apply e ∧ Extra.no_revert e) (events_of is_applied_m st).
Proof.
  destruct (parse_major (version_at st)) as [e|major] eqn:Hp.
  - rewrite (events_of_apply_failed _ _ _ _ _ _ _ _ Hp),
      (events_of_revert_failed _ _ _ _ _ _ _ _ Hp),
      (events_of_is_applied_failed _ _ _ _ _ _ _ Hp).
    repeat split; by apply Forall_env.
  - destruct (groups_at st major) as [[[o p] c] a] eqn:Hg.
    rewrite (events_of_apply _ _ _ _ _ _ _ _ Hp),
      (events_of_revert _ _ _ _ _ _ _ _ Hp),
      (events_of_is_applied_full _ _ _ _ _ _ Hp Hg).
    split; [|split].
    + apply Forall_app. split; [by apply Forall_load|].
      apply Forall_groups. intros label ops t.
      unfold apply_group_events, check_events.
      repeat first [apply Forall_app; split | apply Forall_cons; split
                   | apply Forall_nil | by apply Forall_ops | exact I].
    + apply Forall_app. split; [by apply Forall_load|].
      apply Forall_groups. intros label ops t.
      unfold revert_group_events, check_events.
      repeat first [apply Forall_app; split | apply Forall_cons; split
                   | apply Forall_nil | by apply Forall_ops | exact I].
    + assert (Hs : ∀ header label ops t,
                Forall (λ e, Extra.no_apply e ∧ Extra.no_revert e) header →
                Forall (λ e, Extra.no_apply e ∧ Extra.no_revert e)
                  (status_group_events op_check header label ops t)).
      { intros header label ops t Hh. unfold status_group_events, check_events.
        repeat first [apply Forall_app; split | apply Forall_cons; split
                     | apply Forall_nil | by apply Forall_ops | done]. }
      apply Forall_app. split; [by apply Forall_load|].
      apply Forall_app. split.
      * apply Hs. by repeat constructor.
      * apply Forall_groups. intros label ops t. apply Hs. constructor.
Qed.

(** *** The counts [apply] prints *)

Lemma tallied_checks ops bs n rest :
  Extra.tallied n (zip_with OpCheck ops bs ++ rest) ↔ Extra.tallied n rest.
Proof.
  revert bs. induction ops as [|i ops IH]; intros [|b bs]; simpl; auto.
Qed.

Lemma tallied_applies l oks n rest :
  Extra.tallied n (zip_with OpApply l oks ++ rest)
  ↔ Extra.tallied (n + length (select true l oks)) rest.
Proof.
  revert oks n. induction l as [|i l IH]; intros [|ok oks] n; simpl;
    rewrite ?Nat.add_0_r; try done.
  destruct ok; simpl.
  - rewrite IH. by rewrite Nat.add_succ_r.
  - apply IH.
Qed.

Lemma tallied_apply_group label ops t n rest :
  (∀ n', Extra.tallied n' rest) →
  Extra.tallied n (apply_group_events op_check op_apply label ops t ++ rest).
Proof.
  intros Hrest. unfold apply_group_events, check_events.
  cbn [app Extra.tallied]. rewrite <- app_assoc. apply tallied_checks.
  cbn [app Extra.tallied]. rewrite <- app_assoc. apply tallied_applies.
  cbn [app Extra.tallied]. split; [|apply Hrest].
  exists label. reflexivity.
Qed.

Lemma tallied_apply_groups gs t n :
  Extra.tallied n (groups_events (apply_group_events op_check op_apply)
                     (group_tree op_check op_apply false) gs t).
Proof.
  revert t n. induction gs as [|g gs IH]; intros t n; [done|].
  cbn [groups_events]. apply tallied_apply_group. intros n'. apply IH.
Qed.

(** X7: in every run of [apply], each count printed is the number of
    operations whose [apply] succeeded in the batch just run: an
    operation whose [apply] failed is not counted. *)
Theorem apply_reports_successes st :
  Extra.tallied 0 (events_of apply_m st).
Proof.
  destruct (parse_major (version_at st)) as [e|major] eqn:Hp.
  - rewrite (events_of_apply_failed _ _ _ _ _ _ _ _ Hp). done.
  - rewrite (events_of_apply _ _ _ _ _ _ _ _ Hp).
    unfold load_events, env_events, env_writes, globs.
    cbn [fmap list_fmap app Extra.tallied]. apply tallied_apply_groups.
Qed.
End Orchestration.

Section PureCheck.
Import PathLib Instr Reading.
Variable op_check : Instrumentation → node → node * bool.
Variable op_apply : Instrumentation → node → node * bool.
Variable op_revert : Instrumentation → node → node * bool.
Variable detect : Path → node → AppInfo.t.
Variable load_webroot_settings : gmap string string → node → WebrootSettings.t.
Variable InstrumentationSettings_init :
  string → gmap string string → node → InstrumentationSettings.
Variable webroot_dir : Path.

Abbreviation apply_m :=
  (Instrumentator.apply op_check op_apply detect load_webroot_settings
     InstrumentationSettings_init webroot_dir).
Abbreviation revert_m :=
  (Instrumentator.revert op_check op_revert detect load_webroot_settings
     InstrumentationSettings_init webroot_dir).
Abbreviation is_applied_m :=
  (Instrumentator.is_applied op_check detect load_webroot_settings
     InstrumentationSettings_init webroot_dir).
Abbreviation groups_at st major :=
  (loaded_groups detect webroot_dir load_webroot_settings
     InstrumentationSettings_init st major).
Abbreviation load_events_at st major :=
  (load_events detect webroot_dir load_webroot_settings
     InstrumentationSettings_init st major).
Abbreviation version_at st :=
  (AppInfo.cakephp_version (detect webroot_dir (tree st))).

Lemma printed_app l1 l2 : printed (l1 ++ l2) = printed l1 ++ printed l2.
Proof. apply omap_app. Qed.

Lemma printed_load st major : printed (load_events_at st major) = [].
Proof. reflexivity. Qed.

Lemma printed_check_events ops t : printed (check_events op_check ops t) = [].
Proof. unfold check_events. cbn [printed omap list_omap]. apply printed_checks. Qed.

Lemma check_calls_status_group header label ops t :
  check_calls header = [] →
  check_calls (status_group_events op_check header label ops t) = [ops].
Proof.
  intros Hh. unfold status_group_events, check_events.
  rewrite !check_calls_app, Hh.
  change (check_calls (CallCheck ops :: ?l)) with (ops :: check_calls l).
  by rewrite check_calls_ops.
Qed.

Section Pure.
Hypothesis check_pure : ∀ i t, (op_check i t).1 = t.

Lemma run_ops_pure ops t :
  run_ops op_check ops t = (t, (λ i, (op_check i t).2) <$> ops).
Proof.
  induction ops as [|i ops IH]; [done|]. simpl.
  by rewrite check_pure, IH.
Qed.

Lemma tree_after_pure ops t : tree_after op_check ops t = t.
Proof. unfold tree_after. by rewrite run_ops_pure. Qed.

Lemma select_true_pure ops t :
  operands op_check true ops t = Extra.applied_in op_check t ops.
Proof.
  unfold operands, answers. rewrite run_ops_pure. cbn [snd].
  unfold Extra.applied_in.
  induction ops as [|i ops IH]; [done|].
  rewrite fmap_cons. cbn [select List.filter]. rewrite IH.
  by destruct (op_check i t).2.
Qed.

Lemma select_false_pure ops t :
  operands op_check false ops t = Extra.unapplied_in op_check t ops.
Proof.
  unfold operands, answers. rewrite run_ops_pure. cbn [snd].
  unfold Extra.unapplied_in.
  induction ops as [|i ops IH]; [done|].
  rewrite fmap_cons. cbn [select List.filter]. rewrite IH.
  by destruct (op_check i t).2.
Qed.

Lemma printed_status_group header label ops t :
  printed (status_group_events op_check header label ops t)
  = printed header
    ++ [Instrumentator.ratio label
          (length (Extra.applied_in op_check t ops))
          (length (Extra.unapplied_in op_check t ops))].
Proof.
  unfold status_group_events.
  rewrite !printed_app, printed_check_events.
  by rewrite select_true_pure, select_false_pure.
Qed.
End Pure.

(** X8: when [check] never changes the tree, [is_applied] returns
    with the tree as it was, checks the groups in the order overrides,
    patches, copies, annotation removals, and prints the heading
    followed by one line per group holding the number of its
    operations that check as applied and the number that do not; the
    two numbers of a line add up to the size of the group. *)
Theorem status_reports_partition st major o p c a :
  (∀ i t, (op_check i t).1 = t) →
  parse_major (version_at st) = inr major →
  groups_at st major = (o, p, c, a) →
  let t := tree st in
  let line label g :=
    Instrumentator.ratio label (length (Extra.applied_in op_check t g))
                               (length (Extra.unapplied_in op_check t g)) in
  (is_applied_m st).1 = inr ()
  ∧ tree (is_applied_m st).2 = t
  ∧ check_calls (events_of is_applied_m st) = [o; p; c; a]
  ∧ printed (events_of is_applied_m st)
    = ["Applied / Unapplied"; line "Overrides" o; line "Patches" p;
       line "Copies" c; line "Annotations" a]
  ∧ ∀ g, length (Extra.applied_in op_check t g)
         + length (Extra.unapplied_in op_check t g) = length g.
Proof.
  intros Hpure Hp Hg t line. subst t line. cbv beta.
  split; [|split; [|split; [|split]]].
  - by rewrite run_is_applied_method, Hp, Hg.
  - rewrite run_is_applied_method, Hp, Hg.
    cbn [snd tree add_log with_tree groups_tree fst].
    by rewrite !tree_after_pure.
  - rewrite (events_of_is_applied_full _ _ _ _ _ _ _ _ _ _ _ Hp Hg).
    cbn [groups_events fst snd].
    rewrite !check_calls_app, !check_calls_status_group by done.
    reflexivity.
  - rewrite (events_of_is_applied_full _ _ _ _ _ _ _ _ _ _ _ Hp Hg).
    cbn [groups_events fst snd].
    rewrite !printed_app, printed_load, !(printed_status_group Hpure).
    rewrite !(tree_after_pure Hpure). reflexivity.
  - intros g. unfold Extra.applied_in, Extra.unapplied_in.
    induction g as [|i g IH]; [done|]. simpl.
    destruct (op_check i (tree st)).2; simpl; lia.
Qed.

(** X9: when [check] never changes the tree and no operation of the
    four groups checks as applied, [revert] returns, reports zero for
    every group, runs no operation and leaves the tree as it was. *)
Theorem revert_on_clean_tree st major o p c a :
  (∀ i t, (op_check i t).1 = t) →
  parse_major (version_at st) = inr major →
  groups_at st major = (o, p, c, a) →
  forallb (λ i, negb (op_check i (tree st)).2) (o ++ p ++ c ++ a) = true →
  (revert_m st).1 = inr ()
  ∧ tree (revert_m st).2 = tree st
  ∧ printed (events_of revert_m st)
    = ["Annotations Reverted 0"; "Overrides Reverted 0";
       "Patches Reverted 0"; "Copies Reverted 0"]
  ∧ Forall Spec.quiet (events_of revert_m st).
Proof.
  intros Hpure Hp Hg Hall.
  rewrite !forallb_app, !andb_true_iff in Hall.
  destruct Hall as (Ho & Hp' & Hc & Ha).
  assert (Hnone : ∀ g t, forallb (λ i, negb (op_check i t).2) g = true →
            operands op_check true g t = []).
  { intros g t H. rewrite (select_true_pure Hpure). unfold Extra.applied_in.
    induction g as [|i g IH]; [done|]. simpl in *.
    apply andb_true_iff in H as [Hi H]. apply negb_true_iff in Hi.
    rewrite Hi. by apply IH. }
  assert (Hgroup : ∀ label g t, forallb (λ i, negb (op_check i t).2) g = true →
            group_tree op_check op_revert true g t = t
            ∧ revert_group_events op_check op_revert label g t
              = check_events op_check g t
                ++ [CallRevert []; Printed (label +:+ " 0")]).
  { intros label g t H. unfold group_tree, revert_group_events, outcomes.
    rewrite (Hnone _ _ H), (tree_after_pure Hpure). done. }
  assert (Htree : tree (revert_m st).2 = tree st).
  { rewrite run_revert_method, Hp, Hg.
    cbn [snd tree add_log with_tree revert_order groups_tree fst].
    rewrite (proj1 (Hgroup "" _ _ Ha)), (proj1 (Hgroup "" _ _ Ho)),
      (proj1 (Hgroup "" _ _ Hp')).
    apply (proj1 (Hgroup "" _ _ Hc)). }
  assert (Hev : events_of revert_m st
    = load_events_at st major
      ++ (check_events op_check a (tree st)
          ++ [CallRevert []; Printed "Annotations Reverted 0"])
      ++ (check_events op_check o (tree st)
          ++ [CallRevert []; Printed "Overrides Reverted 0"])
      ++ (check_events op_check p (tree st)
          ++ [CallRevert []; Printed "Patches Reverted 0"])
      ++ (check_events op_check c (tree st)
          ++ [CallRevert []; Printed "Copies Reverted 0"])).
  { rewrite (events_of_revert _ _ _ _ _ _ _ _ Hp), Hg.
    cbn [revert_order groups_events fst snd].
    destruct (Hgroup "Annotations Reverted" _ _ Ha) as [-> ->].
    destruct (Hgroup "Overrides Reverted" _ _ Ho) as [-> ->].
    destruct (Hgroup "Patches Reverted" _ _ Hp') as [-> ->].
    destruct (Hgroup "Copies Reverted" _ _ Hc) as [_ ->].
    by rewrite app_nil_r. }
  split; [|split; [|split]].
  - by rewrite run_revert_method, Hp.
  - done.
  - rewrite Hev. rewrite !printed_app, printed_load, !printed_check_events.
    reflexivity.
  - rewrite Hev. unfold check_events, load_events, env_events, env_writes, globs.
    repeat first [apply Forall_app; split | apply Forall_cons; split
                 | apply Forall_nil | apply quiet_checks | exact I ].
Qed.

(** X10: with nothing declared and nothing discovered, every entry
    point returns with the tree as it was, whatever the operations
    would do: [apply] and [revert] report zero four times and
    [is_applied] reports 0/0 four times. *)
Theorem nothing_to_do st major :
  parse_major (version_at st) = inr major →
  groups_at st major = ([], [], [], []) →
  ((apply_m st).1 = inr () ∧ tree (apply_m st).2 = tree st
   ∧ printed (events_of apply_m st)
     = ["Overrides Applied 0"; "Patches Applied 0";
        "Copies Applied 0"; "Annotations Removed 0"])
  ∧ ((revert_m st).1 = inr () ∧ tree (revert_m st).2 = tree st
     ∧ printed (events_of revert_m st)
       = ["Annotations Reverted 0"; "Overrides Reverted 0";
          "Patches Reverted 0"; "Copies Reverted 0"])
  ∧ ((is_applied_m st).1 = inr () ∧ tree (is_applied_m st).2 = tree st
     ∧ printed (events_of is_applied_m st)
       = ["Applied / Unapplied"; "Overrides: 0/0"; "Patches: 0/0";
          "Copies: 0/0"; "Annotations: 0/0"]).
Proof.
  intros Hp Hg.
  rewrite (events_of_apply _ _ _ _ _ _ _ _ Hp),
    (events_of_revert _ _ _ _ _ _ _ _ Hp),
    (events_of_is_applied_full _ _ _ _ _ _ _ _ _ _ _ Hp Hg).
  rewrite run_apply_method, run_revert_method, run_is_applied_method, Hp, Hg.
  rewrite !printed_app, printed_load.
  repeat split.
Qed.
End PureCheck.

(* ===================================================================== *)
(** ** The resolver: sources and targets *)
(* ===================================================================== *)

Section ResolverMore.
Import PathLib Instr Reading.
Variable detect : Path → node → AppInfo.t.
Variable webroot_dir : Path.

Abbreviation load_patches :=
  (Instrumentator._load_cake_version_patches detect webroot_dir).
Abbreviation load_copies :=
  (Instrumentator._load_cake_version_copies detect webroot_dir).
Abbreviation found_patches :=
  (discovered detect webroot_dir patch_for "*.patch").
Abbreviation found_copies :=
  (discovered detect webroot_dir copy_for "*.php").

Lemma patch_is_not_php x y : x +:+ ".patch" ≠ y +:+ ".php".
Proof.
  revert y. induction x as [|a x IH]; intros y H.
  - pose proof (f_equal String.length H) as Hlen.
    rewrite !length_app in Hlen. simpl in Hlen.
    destruct y as [|b [|c [|d y]]]; simpl in Hlen; try lia.
    rewrite !app_cons in H. discriminate H.
  - destruct y as [|b y].
    + pose proof (f_equal String.length H) as Hlen.
      rewrite !length_app in Hlen. simpl in Hlen. lia.
    + rewrite !app_cons in H. injection H as _ H. by apply IH in H.
Qed.

Lemma found_name mk pat suffix s t major i :
  pat = String "*" suffix → literal suffix = true →
  (∀ base live file, Spec.source (mk base live file) = file) →
  i ∈ discovered detect webroot_dir mk pat s t major →
  ∃ x, name (Spec.source i) = x +:+ suffix.
Proof.
  intros -> Hlit Hmk (sub & live & file & _ & Hf & ->)%discovered_elem.
  rewrite Hmk. apply rglob_elem in Hf as (rel & nm & -> & Hm).
  apply fnmatch_star in Hm as [x ->]; [|done].
  exists x. by rewrite (app_assoc _ rel), name_app.
Qed.

(** X11: no file is both patched in and copied: the patches and the
    copies the resolver returns read different files. *)
Theorem patches_and_copies_read_different_files s st major ps cs :
  settings st = Some s →
  (load_patches major st).1 = inr ps →
  (load_copies major st).1 = inr cs →
  ∀ i j, i ∈ ps → j ∈ cs → Spec.source i ≠ Spec.source j.
Proof.
  intros Hs Hps Hcs i j Hi Hj Heq.
  rewrite (run_load_patches _ _ _ _ _ Hs) in Hps.
  rewrite (run_load_copies _ _ _ _ _ Hs) in Hcs.
  injection Hps as <-. injection Hcs as <-.
  eapply found_name in Hi as [x Hx]; [|reflexivity|done|done].
  eapply found_name in Hj as [y Hy]; [|reflexivity|done|done].
  rewrite Heq, Hy in Hx. symmetry in Hx. by apply patch_is_not_php in Hx.
Qed.

Lemma copy_of_subtree s t major sub j :
  j ∈ found_copies s t major →
  (version_dir s major ++ [sub]) `prefix_of` Spec.source j →
  ∃ live rel, Spec.source j = (version_dir s major ++ [sub]) ++ rel
              ∧ Spec.target j = live ++ rel
              ∧ (sub, live) ∈ roots detect webroot_dir t.
Proof.
  intros (sub' & live & file & Hr & Hf & ->)%discovered_elem [k Hk].
  simpl in Hk. apply rglob_elem in Hf as (rel & nm & -> & _).
  rewrite <- !app_assoc in Hk. apply app_inv_head in Hk.
  injection Hk as -> _.
  exists live, (rel ++ [nm]). unfold copy_for. simpl.
  by rewrite drop_app_length.
Qed.

Lemma roots_functional t sub live live' :
  (sub, live) ∈ roots detect webroot_dir t →
  (sub, live') ∈ roots detect webroot_dir t → live = live'.
Proof.
  unfold roots. rewrite !elem_of_cons, !elem_of_nil.
  intros [H|[H|[H|[]]]] [H'|[H'|[H'|[]]]]; by simplify_eq.
Qed.

(** X12: the copies found under one root subtree never collide: two
    of them with the same destination read the same file. *)
Theorem copies_of_one_subtree_do_not_collide s st major cs sub :
  settings st = Some s →
  (load_copies major st).1 = inr cs →
  ∀ i j, i ∈ cs → j ∈ cs →
         (version_dir s major ++ [sub]) `prefix_of` Spec.source i →
         (version_dir s major ++ [sub]) `prefix_of` Spec.source j →
         Spec.target i = Spec.target j → Spec.source i = Spec.source j.
Proof.
  intros Hs Hcs i j Hi Hj Hpi Hpj Heq.
  rewrite (run_load_copies _ _ _ _ _ Hs) in Hcs. injection Hcs as <-.
  destruct (copy_of_subtree _ _ _ _ _ Hi Hpi) as (live & rel & -> & Hti & Hri).
  destruct (copy_of_subtree _ _ _ _ _ Hj Hpj) as (live' & rel' & -> & Htj & Hrj).
  rewrite (roots_functional _ _ _ _ Hri Hrj) in Hti.
  rewrite Hti, Htj in Heq. apply app_inv_head in Heq. by rewrite Heq.
Qed.
End ResolverMore.

Section Containment.
Import PathLib Instr Reading.
Variable detect : Path → node → AppInfo.t.
Variable webroot_dir : Path.

Abbreviation load_patches :=
  (Instrumentator._load_cake_version_patches detect webroot_dir).
Abbreviation load_copies :=
  (Instrumentator._load_cake_version_copies detect webroot_dir).

Lemma plainb_plain nm : Extra.plainb nm = true ↔ plain nm.
Proof.
  unfold Extra.plainb, plain.
  rewrite !andb_true_iff, !negb_true_iff, !String.eqb_neq. tauto.
Qed.

Lemma plain_names_entries entries :
  Extra.plain_names (Dir entries) = true →
  Forall (λ e, plain e.1 ∧ Extra.plain_names e.2 = true) entries.
Proof.
  induction entries as [|[nm sub] rest IH]; [constructor|].
  simpl. rewrite !andb_true_iff. intros [[Hnm Hsub] Hrest].
  constructor; [by rewrite <- plainb_plain|by apply IH].
Qed.

Lemma plain_names_child entries nm n :
  Extra.plain_names (Dir entries) = true → child nm entries = Some n →
  Extra.plain_names n = true.
Proof.
  intros H%plain_names_entries. induction H as [|[k v] rest [_ Hv] _ IH]; [done|].
  simpl. case_decide; [by intros [= <-]|apply IH].
Qed.

Lemma plain_names_walk p : ∀ up cur up' cur',
  Forall (λ n, Extra.plain_names n = true) up → Extra.plain_names cur = true →
  walk up cur p = Some (up', cur') →
  Extra.plain_names cur' = true.
Proof.
  induction p as [|seg p IH]; intros up cur up' cur' Hup Hcur; [by intros [= _ <-]|].
  simpl. destruct cur as [c|entries]; [done|].
  case_decide; [by apply IH|]. case_decide.
  - destruct up as [|d up]; [by apply IH|].
    apply Forall_cons in Hup as [Hd Hup]. by apply IH.
  - destruct (child seg entries) as [n|] eqn:Hc; [|done].
    apply IH; [by constructor|]. by eapply plain_names_child.
Qed.

Lemma plain_names_lookup t p n :
  Extra.plain_names t = true → lookup t p = Some n → Extra.plain_names n = true.
Proof.
  unfold lookup. intros Ht H.
  destruct (walk [] t p) as [[up cur]|] eqn:Hw; [|done].
  injection H as <-. by eapply (plain_names_walk p [] t up cur).
Qed.

Lemma iterate_directories_plain n :
  ∀ base d, Extra.plain_names n = true → d ∈ iterate_directories base n →
            ∃ rel, d.1 = base ++ rel ∧ Forall plain rel
                   ∧ Forall (λ e : string * node, plain e.1) d.2.
Proof.
  induction n as [c|entries IH] using node_ind'; intros base d Hn Hd.
  - by apply elem_of_nil in Hd.
  - pose proof (plain_names_entries _ Hn) as He.
    simpl in Hd. apply elem_of_cons in Hd as [->|Hd].
    { exists []. rewrite app_nil_r. repeat split; [constructor|].
      eapply Forall_impl; [exact He|]. by intros e [H _]. }
    clear Hn. induction entries as [|[nm sub] rest IHrest];
      [by apply elem_of_nil in Hd|].
    apply Forall_cons in IH as [Hsub Hrest].
    apply Forall_cons in He as [[Hnm Hsubn] He].
    apply elem_of_app in Hd as [Hd|Hd].
    + destruct (Hsub _ _ Hsubn Hd) as (rel & -> & Hrel & Hes).
      exists (nm :: rel). rewrite <- app_assoc. repeat split; [|done].
      by constructor.
    + by apply IHrest.
Qed.

(** On a tree of plain names, what [rglob] yields lies below the
    directory through plain segments. *)
Lemma rglob_elem_plain t dir pat file :
  Extra.plain_names t = true → file ∈ PathLib.rglob t dir pat →
  ∃ rel nm, file = dir ++ rel ++ [nm] ∧ Forall plain rel ∧ plain nm
            ∧ fnmatch pat nm = true.
Proof.
  intros Ht. unfold PathLib.rglob.
  destruct (lookup t dir) as [[c|entries]|] eqn:Hl;
    try (intros H; by apply elem_of_nil in H).
  intros H. apply list_elem_of_bind in H as (d & Hfile & Hd).
  apply iterate_directories_plain in Hd as (rel & Hrel & Hplain & Hes);
    [|by eapply plain_names_lookup].
  unfold select_from in Hfile.
  apply list_elem_of_fmap in Hfile as ([nm sub] & -> & He).
  apply list_elem_of_filter in He as [Hm He].
  rewrite Forall_forall in Hes. specialize (Hes _ He).
  exists rel, nm. destruct d as [dp des]. simpl in *. subst dp.
  by rewrite <- app_assoc.
Qed.

Lemma normpath_plain p rel :
  Forall plain rel → Spec.normpath (p ++ rel) = Spec.normpath p ++ rel.
Proof.
  unfold Spec.normpath. rewrite foldl_app.
  generalize (foldl (λ acc seg,
    if decide (seg = "" ∨ seg = ".") then acc
    else if decide (seg = "..") then removelast acc else acc ++ [seg]) [] p).
  intros acc H. revert acc. induction H as [|seg rel (H1 & H2 & H3) _ IH]; intros acc.
  - by rewrite app_nil_r.
  - simpl. rewrite decide_False by tauto. rewrite decide_False by done.
    rewrite IH. by rewrite <- app_assoc.
Qed.

Lemma inside_plain live rel : Forall plain rel → Spec.inside live (live ++ rel) = true.
Proof.
  intros H. unfold Spec.inside. apply bool_decide_eq_true.
  rewrite (normpath_plain _ _ H). by exists rel.
Qed.

Lemma patch_stem_plain rel x :
  Forall plain rel → x ≠ ".." →
  Forall plain (joinpath_str rel (if decide (x = "") then ".patch" else x)).
Proof.
  intros Hrel Hx. unfold joinpath_str.
  destruct (decide (x = "")) as [->|Hne].
  - rewrite decide_False by (intros [|]; discriminate).
    apply Forall_app. split; [done|]. repeat constructor; discriminate.
  - case_decide as Hd; [done|].
    apply Forall_app. split; [done|]. repeat constructor; tauto.
Qed.

(** X13: on a tree whose listings hold plain names, every copy the
    resolver returns has its destination inside the live root of the
    subtree it was found under, and so has every patch except one
    whose file is named [...patch]. *)
Theorem targets_stay_inside s st major ps cs :
  settings st = Some s →
  Extra.plain_names (tree st) = true →
  (load_patches major st).1 = inr ps →
  (load_copies major st).1 = inr cs →
  ∀ i, i ∈ ps ++ cs → name (Spec.source i) ≠ "...patch" →
       ∃ sub live,
         (sub, live) ∈ roots detect webroot_dir (tree st)
         ∧ (version_dir s major ++ [sub]) `prefix_of` Spec.source i
         ∧ Spec.inside live (Spec.target i) = true.
Proof.
  intros Hs Ht Hps Hcs i Hi Hname.
  rewrite (run_load_patches _ _ _ _ _ Hs) in Hps.
  rewrite (run_load_copies _ _ _ _ _ Hs) in Hcs.
  injection Hps as <-. injection Hcs as <-.
  apply elem_of_app in Hi as [Hi|Hi];
    apply discovered_elem in Hi as (sub & live & file & Hr & Hf & ->);
    apply (rglob_elem_plain _ _ _ _ Ht) in Hf as (rel & nm & -> & Hrel & Hnm & Hm);
    exists sub, live; (split; [done|]); (split; [by eexists|]).
  - apply fnmatch_star in Hm as [x ->]; [|done].
    unfold patch_for in *. cbn [Spec.target Spec.source] in *.
    rewrite drop_app_length, parent_app, stem_patch.
    apply inside_plain, patch_stem_plain; [done|].
    intros ->. apply Hname. by rewrite (app_assoc _ rel), name_app.
  - unfold copy_for. cbn [Spec.target]. rewrite drop_app_length.
    apply inside_plain, Forall_app. split; [done|].
    constructor; [done|constructor].
Qed.
End Containment.

(* ===================================================================== *)
(** ** These properties on the small installation *)
(* ===================================================================== *)

Section MoreEvaluation.
Import PathLib Instr Reading.

(** A fresh object and one that already holds settings behave
    alike. *)
Lemma stale_settings_are_ignored_witness :
  let st := Demo.initial Demo.tree_v4 in
  let st' := Demo.loaded Demo.tree_v4 in
  (settings st = None ∧ settings st' = Some Demo.declared)
  ∧ Demo.apply [Demo.banner] [Demo.stub] "4.2.1" st
    = Demo.apply [Demo.banner] [Demo.stub] "4.2.1" st'
  ∧ Demo.revert [Demo.banner] [Demo.stub] "4.2.1" st
    = Demo.revert [Demo.banner] [Demo.stub] "4.2.1" st'
  ∧ Instrumentator.is_applied Demo.exists_check (Demo.detect "4.2.1")
      Demo.load_webroot_settings (Demo.settings_init [Demo.banner] [Demo.stub])
      Demo.webroot_dir st
    = Instrumentator.is_applied Demo.exists_check (Demo.detect "4.2.1")
        Demo.load_webroot_settings (Demo.settings_init [Demo.banner] [Demo.stub])
        Demo.webroot_dir st'.
Proof.
  intros st st'. split; [by split|].
  apply (stale_settings_are_ignored Demo.exists_check Demo.failing Demo.failing
           (Demo.detect "4.2.1") Demo.load_webroot_settings
           (Demo.settings_init [Demo.banner] [Demo.stub]) Demo.webroot_dir st st');
    reflexivity.
Defined.

(** On a fresh object the private loaders raise. *)
Lemma loaders_need_settings_witness :
  let st := Demo.initial Demo.tree_v4 in
  settings st = None
  ∧ (∃ attr, Instrumentator._load_settings_patches st
             = (inl (AttributeError attr), st))
  ∧ (∃ attr, Instrumentator._load_settings_overrides st
             = (inl (AttributeError attr), st))
  ∧ (∃ attr, Instrumentator._load_annotations_removal st
             = (inl (AttributeError attr), st))
  ∧ (∃ attr, Demo.load_patches "4.2.1" 4 st = (inl (AttributeError attr), st))
  ∧ (∃ attr, Demo.load_copies "4.2.1" 4 st = (inl (AttributeError attr), st)).
Proof.
  intros st. split; [reflexivity|].
  apply (loaders_need_settings (Demo.detect "4.2.1") Demo.webroot_dir st 4).
  reflexivity.
Defined.

(** The status of the installation with one override that is not in
    place, one copy that is, and one patch and one copy discovered. *)
Lemma status_reports_partition_witness :
  let st := Demo.initial Demo.tree_v4 in
  let m := Instrumentator.is_applied Demo.exists_check (Demo.detect "4.2.1")
             Demo.load_webroot_settings
             (Demo.settings_init [Demo.banner] [Demo.stub]) Demo.webroot_dir in
  (m st).1 = inr ()
  ∧ tree (m st).2 = tree st
  ∧ check_calls (events_of m st)
    = [[Demo.banner];
       [PatchInstrumentation ["res"; "cakephp"; "4"; "APP_DIR"; "a.php.patch"]
                             ["var"; "www"; "app"; "a.php"]];
       [Demo.stub;
        CopyInstrumentation ["res"; "cakephp"; "4"; "APP_DIR"; "sub"; "x.php"]
                            ["var"; "www"; "app"; "sub"; "x.php"]];
       []]
  ∧ printed (events_of m st)
    = ["Applied / Unapplied"; "Overrides: 0/1"; "Patches: 0/1";
       "Copies: 1/1"; "Annotations: 0/0"].
Proof.
  intros st m.
  destruct (status_reports_partition Demo.exists_check (Demo.detect "4.2.1")
              Demo.load_webroot_settings
              (Demo.settings_init [Demo.banner] [Demo.stub]) Demo.webroot_dir
              st 4 _ _ _ _ (λ i t, eq_refl) eq_refl eq_refl)
    as (H1 & H2 & H3 & H4 & _).
  split; [exact H1|]. split; [exact H2|]. split; [exact H3|exact H4].
Defined.

(** A declared copy that is not in place: [revert] has nothing to
    do. *)
Lemma revert_on_clean_tree_witness :
  let st := Demo.initial Demo.tree_v3 in
  let m := Demo.revert [Demo.banner] [] "4.2.1" in
  forallb (λ i, negb (Demo.exists_check i (tree st)).2) [Demo.banner] = true
  ∧ (m st).1 = inr ()
  ∧ tree (m st).2 = tree st
  ∧ printed (events_of m st)
    = ["Annotations Reverted 0"; "Overrides Reverted 0";
       "Patches Reverted 0"; "Copies Reverted 0"]
  ∧ Forall Spec.quiet (events_of m st).
Proof.
  intros st m. split; [reflexivity|].
  apply (revert_on_clean_tree Demo.exists_check Demo.failing
           (Demo.detect "4.2.1") Demo.load_webroot_settings
           (Demo.settings_init [Demo.banner] []) Demo.webroot_dir
           st 4 [Demo.banner] [] [] []).
  - intros i t. reflexivity.
  - vm_compute. reflexivity.
  - vm_compute. reflexivity.
  - vm_compute. reflexivity.
Defined.

(** Scenario A: version 4 detected, nothing declared and no resources
    for version 4. *)
Lemma nothing_to_do_witness :
  let st := Demo.initial Demo.tree_v3 in
  let status := Instrumentator.is_applied Demo.exists_check (Demo.detect "4.2.1")
                  Demo.load_webroot_settings (Demo.settings_init [] [])
                  Demo.webroot_dir in
  ((Demo.apply [] [] "4.2.1" st).1 = inr ()
   ∧ tree (Demo.apply [] [] "4.2.1" st).2 = tree st
   ∧ printed (events_of (Demo.apply [] [] "4.2.1") st)
     = ["Overrides Applied 0"; "Patches Applied 0";
        "Copies Applied 0"; "Annotations Removed 0"])
  ∧ ((Demo.revert [] [] "4.2.1" st).1 = inr ()
     ∧ tree (Demo.revert [] [] "4.2.1" st).2 = tree st
     ∧ printed (events_of (Demo.revert [] [] "4.2.1") st)
       = ["Annotations Reverted 0"; "Overrides Reverted 0";
          "Patches Reverted 0"; "Copies Reverted 0"])
  ∧ ((status st).1 = inr () ∧ tree (status st).2 = tree st
     ∧ printed (events_of status st)
       = ["Applied / Unapplied"; "Overrides: 0/0"; "Patches: 0/0";
          "Copies: 0/0"; "Annotations: 0/0"]).
Proof.
  intros st status.
  apply (nothing_to_do Demo.exists_check Demo.failing Demo.failing
           (Demo.detect "4.2.1") Demo.load_webroot_settings
           (Demo.settings_init [] []) Demo.webroot_dir st 4).
  - vm_compute. reflexivity.
  - vm_compute. reflexivity.
Defined.

(** The patch and the copy found on the tree for version 4 read
    different files. *)
Lemma patches_and_copies_read_different_files_witness :
  let st := Demo.loaded Demo.tree_v4 in
  let found_patch :=
    PatchInstrumentation ["res"; "cakephp"; "4"; "APP_DIR"; "a.php.patch"]
                         ["var"; "www"; "app"; "a.php"] in
  let found_copy :=
    CopyInstrumentation ["res"; "cakephp"; "4"; "APP_DIR"; "sub"; "x.php"]
                        ["var"; "www"; "app"; "sub"; "x.php"] in
  ((Demo.load_patches "4.2.1" 4 st).1 = inr [found_patch]
   ∧ (Demo.load_copies "4.2.1" 4 st).1 = inr [found_copy])
  ∧ ∀ i j, i ∈ [found_patch] → j ∈ [found_copy] → Spec.source i ≠ Spec.source j.
Proof.
  intros st found_patch found_copy. split; [by split|].
  apply (patches_and_copies_read_different_files (Demo.detect "4.2.1")
           Demo.webroot_dir Demo.declared st 4); reflexivity.
Defined.

(** The copies found under [APP_DIR] on the tree for version 4. *)
Lemma copies_of_one_subtree_do_not_collide_witness :
  let st := Demo.loaded Demo.tree_v4 in
  let found_copy :=
    CopyInstrumentation ["res"; "cakephp"; "4"; "APP_DIR"; "sub"; "x.php"]
                        ["var"; "www"; "app"; "sub"; "x.php"] in
  (Demo.load_copies "4.2.1" 4 st).1 = inr [found_copy]
  ∧ ∀ i j, i ∈ [found_copy] → j ∈ [found_copy] →
           (version_dir Demo.declared 4 ++ ["APP_DIR"]) `prefix_of` Spec.source i →
           (version_dir Demo.declared 4 ++ ["APP_DIR"]) `prefix_of` Spec.source j →
           Spec.target i = Spec.target j → Spec.source i = Spec.source j.
Proof.
  intros st found_copy. split; [reflexivity|].
  apply (copies_of_one_subtree_do_not_collide (Demo.detect "4.2.1")
           Demo.webroot_dir Demo.declared st 4); reflexivity.
Defined.

(** The targets found on the tree for version 4 lie inside their live
    roots. *)
Lemma targets_stay_inside_witness :
  let st := Demo.loaded Demo.tree_v4 in
  let found_patch :=
    PatchInstrumentation ["res"; "cakephp"; "4"; "APP_DIR"; "a.php.patch"]
                         ["var"; "www"; "app"; "a.php"] in
  let found_copy :=
    CopyInstrumentation ["res"; "cakephp"; "4"; "APP_DIR"; "sub"; "x.php"]
                        ["var"; "www"; "app"; "sub"; "x.php"] in
  Extra.plain_names (tree st) = true
  ∧ ∀ i, i ∈ [found_patch] ++ [found_copy] →
         name (Spec.source i) ≠ "...patch" →
         ∃ sub live,
           (sub, live) ∈ roots (Demo.detect "4.2.1") Demo.webroot_dir (tree st)
           ∧ (version_dir Demo.declared 4 ++ [sub]) `prefix_of` Spec.source i
           ∧ Spec.inside live (Spec.target i) = true.
Proof.
  intros st found_patch found_copy. split; [reflexivity|].
  apply (targets_stay_inside (Demo.detect "4.2.1") Demo.webroot_dir
           Demo.declared st 4); reflexivity.
Defined.
(** A version whose major part is written with U+0664 ARABIC-INDIC
    DIGIT FOUR is version 4: [apply] returns, after scanning
    [/res/cakephp/4]; a version with no decimal digit before its
    first dot stops all three entry points at [int]. *)
Example version_in_another_script :
  let version := PyStr.utf8 [1636; 46; 50]%N in
  let st := Demo.initial Demo.tree_v4 in
  PyStr.int (PyStr.before_first "." version) = Some 4%Z
  ∧ (Demo.apply [] [] version st).1 = inr ()
  ∧ Glob ["res"; "cakephp"; "4"; "APP_DIR"] "*.patch"
    ∈ events_of (Demo.apply [] [] version) st
  ∧ (Demo.apply [] [] "v4.2" st).1
    = inl (ValueError "invalid literal for int() with base 10")
  ∧ (Demo.revert [] [] ".4.2" st).1
    = inl (ValueError "invalid literal for int() with base 10").
Proof.
  intros version st. split; [|split; [|split; [|split]]];
    try (vm_compute; reflexivity).
  vm_compute. do 4 apply list_elem_of_further. apply list_elem_of_here.
Qed.
End MoreEvaluation.
